(** * The pyquil example notebooks, embedded and verified

    Two notebooks live under [examples/]:

    - [NoiseInvestigation.ipynb] builds a fixed native-gate program, sweeps a
      grid of rotation angles and T1 times, sends every noisy program to the
      simulator and turns the measured bitstrings into the expectation values
      of Z0, Z1 and ZZ;
    - [QubitPlaceholder.ipynb] shows how symbolic qubits are resolved to
      physical indices with [address_qubits].

    Numbers.  Grid parameters and gate angles are real numbers ([R], so [pi]
    is [PI]).  The statistics computed from the integer bitstrings are
    modelled twice:

    - in [np] and [Noise] as exact rationals ([Q]) with an explicit [nan]
      for the mean of an empty array; this model carries the results on
      shapes, errors, [nan], bounds and extremes, which do not depend on
      rounding;
    - in [Float64] as IEEE binary64 values (primitive floats), the values
      the notebook stores; every statement about the stored values
      themselves is made there. *)

From Stdlib Require Import QArith Qfield Reals Lra Lqa.
From Stdlib Require Import Floats.
From stdpp Require Import gmap strings list fin_maps pretty.

(** ** Python exceptions *)

Inductive exn : Type :=
  | RuntimeError (msg : string)
  | ValueError (msg : string)
  | KeyError (msg : string).

(** [except RuntimeError] selects by class. *)
Definition is_RuntimeError (e : exn) : bool :=
  match e with RuntimeError _ => true | _ => false end.

(** ** Python dictionaries

    A dict display or comprehension inserts its items from left to right, so
    a later item replaces an earlier one with the same key. *)
Definition dict_of `{Countable K} {V} (items : list (K * V)) : gmap K V :=
  foldl (fun m kv => <[kv.1 := kv.2]> m) ∅ items.

(** ** Quil programs as the notebooks build them *)

Module Quil.

(** A qubit argument is a physical index or a placeholder object; the
    placeholder is identified by the identity of the Python object. *)
Inductive qubit : Type :=
  | Qubit (index : nat)
  | QubitPlaceholder (id : nat).

#[export] Instance qubit_eq_dec : EqDecision qubit.
Proof. solve_decision. Defined.

(** The value returned by [prog.declare(name, memory_size=n)]. *)
Record MemoryReference : Type := mkRef { ref_name : string; declared_size : nat }.

Inductive instr : Type :=
  | Gate (name : string) (params : list R) (qubits : list qubit)
  | Measurement (q : qubit) (region : MemoryReference) (offset : nat).

(** [Program(...)] holds the instructions it was given, in order. *)
Record Program : Type := mkProgram { instructions : list instr }.

(** pyquil.gates: every call builds the gate with its name, its parameters
    and its qubit arguments; an integer argument is a physical qubit. *)
Definition H (q : qubit) : instr := Gate "H" [] [q].
Definition CNOT (control target : qubit) : instr := Gate "CNOT" [] [control; target].
Definition RX (angle : R) (q : nat) : instr := Gate "RX" [angle] [Qubit q].
Definition RZ (angle : R) (q : nat) : instr := Gate "RZ" [angle] [Qubit q].
Definition CZ (control target : nat) : instr := Gate "CZ" [] [Qubit control; Qubit target].
(** [MEASURE(q, ro[i])] *)
Definition MEASURE (q : nat) (ro : MemoryReference) (i : nat) : instr :=
  Measurement (Qubit q) ro i.

Definition instr_qubits (i : instr) : list qubit :=
  match i with
  | Gate _ _ qs => qs
  | Measurement q _ _ => [q]
  end.

Definition program_qubits (p : Program) : list qubit :=
  concat (map instr_qubits (instructions p)).

End Quil.

(** ** The numpy operations the sweep uses *)

Module np.

(** A float computed from integer data: an exact rational, or [nan]. *)
Inductive float : Type :=
  | fin (q : Q)
  | nan.

Definition lift2 (f : Q -> Q -> Q) (x y : float) : float :=
  match x, y with
  | fin a, fin b => fin (f a b)
  | _, _ => nan
  end.

Definition sub : float -> float -> float := lift2 Qminus.
Definition mul : float -> float -> float := lift2 Qmult.

(** A two-dimensional integer array of shape [(length rows, ncols)]. *)
Record ndarray : Type := mkArray { ncols : nat; rows : list (list Z) }.

Definition sum (xs : list Z) : Z := foldr Z.add 0%Z xs.

(** [xs.mean()] of a one-dimensional integer array; [nan] when it is empty. *)
Definition mean (xs : list Z) : float :=
  match xs with
  | [] => nan
  | _ => fin (inject_Z (sum xs) / inject_Z (Z.of_nat (length xs)))
  end.

Definition column (j : nat) (a : ndarray) : list Z :=
  map (fun r => nth j r 0%Z) (rows a).

(** [np.mean(a, axis=0)]: one mean per column. *)
Definition mean_axis0 (a : ndarray) : list float :=
  map (fun j => mean (column j a)) (seq 0 (ncols a)).

(** [np.sum(a, axis=1)]: one sum per row. *)
Definition sum_axis1 (a : ndarray) : list Z := map sum (rows a).

(** [xs % k], elementwise; the result has the sign of [k] as in Python. *)
Definition mod_ (xs : list Z) (k : Z) : list Z := map (fun x => (x mod k)%Z) xs.

(** [np.linspace(start, stop, num)] with the end point included. *)
Definition linspace (start stop : R) (num : nat) : list R :=
  let step := ((stop - start) / INR (num - 1))%R in
  map (fun i => (INR i * step + start)%R) (seq 0 num).

(** [np.logspace(start, stop, num)]: powers of ten of a [linspace]. *)
Definition logspace (start stop : R) (num : nat) : list R :=
  map (fun y => Rpower 10 y) (linspace start stop num).

End np.

(** ** NoiseInvestigation.ipynb *)

Module Noise.
Import Quil.

Definition get_compiled_prog (theta : R) : Program :=
  mkProgram [
    RZ (- PI / 2) 0;
    RX (- PI / 2) 0;
    RZ (- PI / 2) 1;
    RX (PI / 2) 1;
    CZ 1 0;
    RZ (- PI / 2) 1;
    RX (- PI / 2) 1;
    RZ theta 1;
    RX (PI / 2) 1;
    CZ 1 0;
    RX (PI / 2) 0;
    RZ (PI / 2) 0;
    RZ (- PI / 2) 1;
    RX (PI / 2) 1;
    RZ (- PI / 2) 1
  ].

(** The native gate set named by the notebook: RZ(theta), RX(+-pi/2), CZ
    (here on qubits 0 and 1). *)
Definition on_01 (q : qubit) : Prop := q = Qubit 0 \/ q = Qubit 1.

Definition native (i : instr) : Prop :=
  match i with
  | Gate name params qs =>
      (name = "RZ" /\ length params = 1 /\ length qs = 1 /\ Forall on_01 qs)
      \/ (name = "RX" /\ (params = [(PI / 2)%R] \/ params = [(- PI / 2)%R])
          /\ length qs = 1 /\ Forall on_01 qs)
      \/ (name = "CZ" /\ params = [] /\ length qs = 2 /\ Forall on_01 qs)
  | Measurement _ _ _ => False
  end.

Definition t1s : list R := np.logspace (-6) (-5) 3.
Definition thetas : list R := np.linspace (- PI) PI 20.

(** The library calls of the loop body whose code is not part of the
    notebooks.  [declare] changes the program it is called on, so it
    returns the changed program with the reference. *)
Record library : Type := mkLibrary {
  declare : forall (prog : Program) (name : string) (memory_size : nat),
      Program * MemoryReference;
  add_decoherence_noise : forall (prog : Program) (T1 T2 : R), Program;
  inst : forall (prog : Program) (more : list instr), Program;
  wrap_in_numshots_loop : forall (prog : Program) (shots : nat), Program
}.

(** [qc.run]: the first argument counts the calls made before, so that two
    submissions of one program may be answered differently. *)
Definition simulator : Type := nat -> Program -> np.ndarray.

(** Values stored in a record: a statistic or a grid parameter. *)
Inductive value : Type :=
  | Stat (x : np.float)
  | Param (r : R).

(** The sweep appends to [records]; [submitted] is the trace of the
    programs handed to [qc.run]. *)
Record state : Type := mkState {
  records : list (gmap string value);
  submitted : list Program
}.

(** [z0, z1 = xs] *)
Definition unpack2 {A} (xs : list A) : exn + A * A :=
  match xs with
  | [a; b] => inr (a, b)
  | [] | [_] => inl (ValueError "not enough values to unpack")
  | _ => inl (ValueError "too many values to unpack")
  end.

(** Expectation of Z0 and Z1: [1 - 2*np.mean(bitstrings, axis=0)]. *)
Definition z_single (bitstrings : np.ndarray) : list np.float :=
  map (fun m => np.sub (np.fin 1) (np.mul (np.fin 2) m)) (np.mean_axis0 bitstrings).

(** Expectation of ZZ: [1 - (np.sum(bitstrings, axis=1) % 2).mean() * 2]. *)
Definition z_pair (bitstrings : np.ndarray) : np.float :=
  np.sub (np.fin 1)
    (np.mul (np.mean (np.mod_ (np.sum_axis1 bitstrings) 2)) (np.fin 2)).

Definition aggregate (bitstrings : np.ndarray) : exn + np.float * np.float * np.float :=
  match unpack2 (z_single bitstrings) with
  | inl e => inl e
  | inr (z0, z1) => inr (z0, z1, z_pair bitstrings)
  end.

Definition make_record (z0 z1 zz : np.float) (theta t1 : R) : gmap string value :=
  dict_of [
    ("z0", Stat z0);
    ("z1", Stat z1);
    ("zz", Stat zz);
    ("theta", Param theta);
    ("t1", Param t1)
  ].

(** A [for] loop whose body may raise. *)
Fixpoint for_each {A S} (xs : list A) (body : A -> S -> exn + S) (s : S) : exn + S :=
  match xs with
  | [] => inr s
  | x :: xs' =>
      match body x s with
      | inl e => inl e
      | inr s' => for_each xs' body s'
      end
  end.

Section Sweep.
Variable lib : library.
Variable qc_run : simulator.

(** The program handed to [qc.run] at one grid point. *)
Definition noisy_program (theta t1 : R) : Program :=
  let prog := get_compiled_prog theta in
  let '(prog, ro) := declare lib prog "ro" 2 in
  let noisy :=
    inst lib (add_decoherence_noise lib prog t1 (t1 / 2)%R)
      [MEASURE 0 ro 0; MEASURE 1 ro 1] in
  wrap_in_numshots_loop lib noisy 1000.

Definition body (theta t1 : R) (s : state) : exn + state :=
  let job := noisy_program theta t1 in
  let bitstrings := qc_run (length (submitted s)) job in
  match aggregate bitstrings with
  | inl e => inl e
  | inr (z0, z1, zz) =>
      let record := make_record z0 z1 zz theta t1 in
      inr {| records := records s ++ [record];
             submitted := submitted s ++ [job] |}
  end.

Definition sweep_from (s : state) : exn + state :=
  for_each thetas (fun theta => for_each t1s (fun t1 => body theta t1)) s.

Definition sweep : exn + state := sweep_from (mkState [] []).
End Sweep.

(** *** Reference formulations of what the sweep computes *)

Definition bit (b : Z) : Prop := b = 0%Z \/ b = 1%Z.
Definition bit_pair (p : Z * Z) : Prop := bit p.1 /\ bit p.2.

(** The array of shape [(length pairs, 2)] whose rows are the pairs. *)
Definition pair_array (pairs : list (Z * Z)) : np.ndarray :=
  np.mkArray 2 (map (fun p => [p.1; p.2]) pairs).

(** What the simulator is expected to answer: at least one shot, two
    measured bits per shot. *)
Definition bitstring_array (a : np.ndarray) : Prop :=
  exists pairs, pairs <> [] /\ Forall bit_pair pairs /\ a = pair_array pairs.

(** The mean over all rows of a quantity computed from the row. *)
Definition mean_over (f : Z * Z -> Z) (pairs : list (Z * Z)) : Q :=
  inject_Z (foldr (fun p acc => (f p + acc)%Z) 0%Z pairs)
  / inject_Z (Z.of_nat (length pairs)).

Definition parity (p : Z * Z) : Z := ((p.1 + p.2) mod 2)%Z.
Definition sign_product (p : Z * Z) : Z := ((1 - 2 * p.1) * (1 - 2 * p.2))%Z.

Definition spec_z0 (pairs : list (Z * Z)) : Q := 1 - 2 * mean_over fst pairs.
Definition spec_z1 (pairs : list (Z * Z)) : Q := 1 - 2 * mean_over snd pairs.
Definition spec_zz (pairs : list (Z * Z)) : Q := 1 - 2 * mean_over parity pairs.
Definition spec_zz_signs (pairs : list (Z * Z)) : Q := mean_over sign_product pairs.

Definition in_unit_interval (x : np.float) : Prop :=
  match x with
  | np.fin q => (-1 <= q /\ q <= 1)%Q
  | np.nan => False
  end.

(** The grid points in the order of the nested loop: theta outside, t1
    inside. *)
Definition grid : list (R * R) :=
  flat_map (fun theta => map (fun t1 => (theta, t1)) t1s) thetas.

(** The three statistics of an array, without the unpacking step. *)
Definition stats (a : np.ndarray) : np.float * np.float * np.float :=
  (nth 0 (z_single a) np.nan, nth 1 (z_single a) np.nan, z_pair a).

(** The record of the [k]-th grid point. *)
Definition record_at (lib : library) (qc_run : simulator) (k : nat) (point : R * R)
  : gmap string value :=
  let '(z0, z1, zz) := stats (qc_run k (noisy_program lib point.1 point.2)) in
  make_record z0 z1 zz point.1 point.2.

Definition record_keys : gset string :=
  {[ "z0"; "z1"; "zz"; "theta"; "t1" ]}.

(** *** A concrete setting to run the sweep in

    A library that adds no noise and keeps programs as instruction lists,
    and simulators that answer every job with three shots. *)
Definition plain_library : library := {|
  declare := fun prog name size => (prog, mkRef name size);
  add_decoherence_noise := fun prog _ _ => prog;
  inst := fun prog more => mkProgram (instructions prog ++ more);
  wrap_in_numshots_loop := fun prog _ => prog
|}.

Definition counting_simulator : simulator :=
  fun k _ => pair_array [(0, 1); (1, 1); (Z.of_nat k mod 2, 0)]%Z.

(** Answers like [counting_simulator] during the sweep and differently
    after its sixty calls. *)
Definition late_simulator : simulator :=
  fun k job => if k <? 60 then counting_simulator k job else pair_array [(1, 1)]%Z.

(** *** The plots

    [df_all = pd.DataFrame(records)] has one row per record.
    [df_all.query('t1 == @t1')] keeps, in order, the rows whose [t1] is the
    given value; [df[key]] is the column of a key, one cell per row (a row
    without the key has no value there).  On each axis the loop over [t1s]
    draws one line per noise level: [plot(df['theta'], df[key])]. *)
Definition has_t1 (t1 : R) (row : gmap string value) : bool :=
  match row !! "t1" with
  | Some (Param x) => if Req_dec_T x t1 then true else false
  | _ => false
  end.

Definition query_t1 (df : list (gmap string value)) (t1 : R) : list (gmap string value) :=
  List.filter (has_t1 t1) df.

Definition column (key : string) (df : list (gmap string value)) : list (option value) :=
  map (fun row => row !! key) df.

Definition plot_lines (df_all : list (gmap string value)) (key : string)
  : list (list (option value) * list (option value)) :=
  map (fun t1 => let df := query_t1 df_all t1 in (column "theta" df, column key df)) t1s.

(** A simulator whose answer to the call number 17 has three columns. *)
Definition faulty_simulator : simulator :=
  fun k job =>
    if k =? 17 then np.mkArray 3 [[0; 1; 1]]%Z else counting_simulator k job.

End Noise.

(** ** The aggregation in float64

    What the notebook stores in a record are float64 values.  [np.mean] of
    an integer array accumulates in float64 and divides by the number of
    elements; as long as the partial sums stay below 2^53 in magnitude
    every addition of integers is exact, so the accumulated value is the
    integer sum converted to float64.  That holds for arrays of bits with
    fewer than 2^53 rows, which is where the definitions below are used.
    The division, [2 * x], [x * 2] and [1 - x] are IEEE operations, rounded
    to nearest. *)

Module Float64.
Import Noise.

Definition of_int (z : Z) : float :=
  if (z <? 0)%Z then PrimFloat.opp (PrimFloat.of_uint63 (Uint63.of_Z (- z)))
  else PrimFloat.of_uint63 (Uint63.of_Z z).

(** [xs.mean()]; 0/0 is nan, as for an empty array in numpy. *)
Definition mean (xs : list Z) : float :=
  (of_int (np.sum xs) / of_int (Z.of_nat (length xs)))%float.

(** [np.mean(a, axis=0)] *)
Definition mean_axis0 (a : np.ndarray) : list float :=
  map (fun j => mean (np.column j a)) (seq 0 (np.ncols a)).

(** [1 - 2*np.mean(bitstrings, axis=0)] *)
Definition z_single (bitstrings : np.ndarray) : list float :=
  map (fun m => (1 - 2 * m)%float) (mean_axis0 bitstrings).

(** [1 - (np.sum(bitstrings, axis=1) % 2).mean() * 2] *)
Definition z_pair (bitstrings : np.ndarray) : float :=
  (1 - mean (np.mod_ (np.sum_axis1 bitstrings) 2) * 2)%float.

Definition aggregate (bitstrings : np.ndarray) : exn + float * float * float :=
  match unpack2 (z_single bitstrings) with
  | inl e => inl e
  | inr (z0, z1) => inr (z0, z1, z_pair bitstrings)
  end.

(** *** Reference formulations *)

(** The number of rows, weighted by a quantity of the row: for a quantity
    that is 0 or 1, the number of rows where it is 1. *)
Definition count (f : Z * Z -> Z) (pairs : list (Z * Z)) : Z :=
  foldr (fun p acc => (f p + acc)%Z) 0%Z pairs.

(** [1 - 2 * (ones / n)], every operation in float64. *)
Definition expectation (ones n : Z) : float :=
  (1 - 2 * (of_int ones / of_int n))%float.

(** The rational number a finite float64 stands for. *)
Definition exact_value (x : float) : option Q :=
  match Prim2SF x with
  | S754_zero _ => Some 0%Q
  | S754_finite s m e =>
      Some ((if s then - inject_Z (Z.pos m) else inject_Z (Z.pos m)) * Qpower 2 e)%Q
  | _ => None
  end.

(** Three shots with one 1 in the first column. *)
Definition one_in_three : list (Z * Z) := [(1, 0); (0, 1); (0, 1)]%Z.

(** Three shots with one of odd parity. *)
Definition one_odd_in_three : list (Z * Z) := [(0, 1); (1, 1); (0, 0)]%Z.

End Float64.

(** ** QubitPlaceholder.ipynb

    The notebook only calls the library: [QubitPlaceholder], [Program.out],
    [address_qubits] are defined in pyquil itself, whose sources are not
    among the files at hand.  They are modelled from the specification. *)

Module Placeholder.
Import Quil.

#[export] Instance qubit_countable : Countable qubit.
Proof.
  refine (inj_countable'
    (fun q => match q with Qubit i => inl i | QubitPlaceholder i => inr i end)
    (fun x => match x with inl i => Qubit i | inr i => QubitPlaceholder i end) _).
  intros []; reflexivity.
Defined.

(** The notebook's kernel: the counter that gives placeholder objects
    their identity, the program objects by reference, and what was
    printed. *)
Record nb : Type := mkNb {
  next_id : nat;
  heap : list Program;
  stdout : list string
}.

(** A statement runs on the kernel state and returns or raises; the state
    changes made before a raise stay. *)
Definition M (A : Type) : Type := nb -> (exn + A) * nb.

#[export] Instance M_ret : MRet M := fun A x s => (inr x, s).
#[export] Instance M_bind : MBind M := fun A B f m s =>
  match m s with
  | (inl e, s') => (inl e, s')
  | (inr x, s') => f x s'
  end.

(** [try: body except <class> as e: handler e] *)
Definition try_except {A} (body : M A) (catches : exn -> bool) (handler : exn -> M A) : M A :=
  fun s =>
    match body s with
    | (inl e, s') => if catches e then handler e s' else (inl e, s')
    | (inr x, s') => (inr x, s')
    end.

Definition lift {A} (r : exn + A) : M A := fun s => (r, s).

Definition print (line : string) : M unit :=
  fun s => (inr (), {| next_id := next_id s; heap := heap s; stdout := stdout s ++ [line] |}).

(** [print(e)] prints the message of the exception. *)
Definition message (e : exn) : string :=
  match e with RuntimeError m | ValueError m | KeyError m => m end.

(** Modelled from the spec: [QubitPlaceholder()] of pyquil.quilatom, a
    symbolic stand-in for a physical qubit; each call makes a new object,
    distinct from all earlier ones. *)
Definition new_placeholder : M qubit :=
  fun s => (inr (QubitPlaceholder (next_id s)),
            {| next_id := S (next_id s); heap := heap s; stdout := stdout s |}).

(** Modelled from the spec: [QubitPlaceholder.register(n)], a list of [n]
    new placeholders. *)
Fixpoint register (n : nat) : M (list qubit) :=
  match n with
  | 0 => mret []
  | S n' => q ← new_placeholder; qs ← register n'; mret (q :: qs)
  end.

(** [Program(...)]: a new program object. *)
Definition new_program (body : list instr) : M nat :=
  fun s => (inr (length (heap s)),
            {| next_id := next_id s; heap := heap s ++ [mkProgram body]; stdout := stdout s |}).

Definition deref (p : nat) : M Program :=
  fun s =>
    match heap s !! p with
    | Some prog => (inr prog, s)
    | None => (inl (RuntimeError "dangling program reference"), s)
    end.

(** Sequencing of fallible steps over a list. *)
Fixpoint traverse {A B} (f : A -> exn + B) (xs : list A) : exn + list B :=
  match xs with
  | [] => inr []
  | x :: xs' =>
      match f x with
      | inl e => inl e
      | inr y =>
          match traverse f xs' with
          | inl e => inl e
          | inr ys => inr (y :: ys)
          end
      end
  end.

Section Text.
(** How a gate parameter is printed is left open. *)
Variable format_param : R -> string.

Definition params_text (ps : list R) : string :=
  match ps with
  | [] => ""
  | _ => "(" +:+ String.concat "," (map format_param ps) +:+ ")"
  end.

(** Modelled from the spec: the Quil text of a qubit for [Program.out()]
    of pyquil.quil; the library raises a runtime error when an
    unaddressed placeholder is used. *)
Definition qubit_out (q : qubit) : exn + string :=
  match q with
  | Qubit i => inr (pretty i)
  | QubitPlaceholder id =>
      inl (RuntimeError ("Qubit q" +:+ pretty id +:+ " has not been assigned an index"))
  end.

(** Modelled from the spec: [str(q)] of pyquil.quilatom; printing never
    raises, a placeholder shows as [{q<id>}]. *)
Definition qubit_str (q : qubit) : string :=
  match q with
  | Qubit i => pretty i
  | QubitPlaceholder id => "{q" +:+ pretty id +:+ "}"
  end.

Definition instr_text (name : string) (ps : list R) (qs : list string) : string :=
  name +:+ params_text ps +:+ " " +:+ String.concat " " qs.

Definition measure_text (q : string) (r : MemoryReference) (i : nat) : string :=
  "MEASURE " +:+ q +:+ " " +:+ ref_name r +:+ "[" +:+ pretty i +:+ "]".

(** Modelled from the spec: [out()] of one instruction of pyquil.quilbase,
    its name, parameters and qubits; it raises what a qubit raises. *)
Definition instr_out (i : instr) : exn + string :=
  match i with
  | Gate name ps qs =>
      match traverse qubit_out qs with
      | inl e => inl e
      | inr ts => inr (instr_text name ps ts)
      end
  | Measurement q r o =>
      match qubit_out q with
      | inl e => inl e
      | inr t => inr (measure_text t r o)
      end
  end.

Definition instr_str (i : instr) : string :=
  match i with
  | Gate name ps qs => instr_text name ps (map qubit_str qs)
  | Measurement q r o => measure_text (qubit_str q) r o
  end.

Definition lines (ls : list string) : string :=
  foldr (fun l rest => l +:+ String (Ascii.ascii_of_nat 10) rest) "" ls.

(** Modelled from the spec: [Program.out()] of pyquil.quil, the Quil
    text of a program; it raises the runtime error of the first
    unaddressed placeholder it meets. *)
Definition out (prog : Program) : exn + string :=
  match traverse instr_out (instructions prog) with
  | inl e => inl e
  | inr ls => inr (lines ls)
  end.

(** Modelled from the spec: [str(prog)] of pyquil.quil, what [print(prog)]
    shows. *)
Definition str (prog : Program) : string :=
  lines (map instr_str (instructions prog)).
End Text.

(** Modelled from the spec: the placeholders that [address_qubits] finds
    in a program, each once, in the order in which they are first met. *)
Fixpoint first_seen (seen : list qubit) (qs : list qubit) : list qubit :=
  match qs with
  | [] => seen
  | Qubit _ :: qs' => first_seen seen qs'
  | QubitPlaceholder id :: qs' =>
      if decide (QubitPlaceholder id ∈ seen)
      then first_seen seen qs'
      else first_seen (seen ++ [QubitPlaceholder id]) qs'
  end.

Definition placeholders (prog : Program) : list qubit :=
  first_seen [] (program_qubits prog).

(** Modelled from the spec: the default mapping of [address_qubits] of
    pyquil.quil, which addresses the placeholders from 0 upwards; the
    placeholders are numbered in the order in which the program first
    uses them. *)
Definition default_mapping (prog : Program) : gmap qubit nat :=
  dict_of (imap (fun i qp => (qp, i)) (placeholders prog)).

(** Modelled from the spec: a placeholder is resolved by looking it up in
    the mapping, which raises a KeyError when it is not a key. *)
Definition address_qubit (mapping : gmap qubit nat) (q : qubit) : exn + qubit :=
  match q with
  | Qubit i => inr (Qubit i)
  | QubitPlaceholder id =>
      match mapping !! q with
      | Some i => inr (Qubit i)
      | None => inl (KeyError ("q" +:+ pretty id))
      end
  end.

Definition address_instr (mapping : gmap qubit nat) (i : instr) : exn + instr :=
  match i with
  | Gate name ps qs =>
      match traverse (address_qubit mapping) qs with
      | inl e => inl e
      | inr qs' => inr (Gate name ps qs')
      end
  | Measurement q r o =>
      match address_qubit mapping q with
      | inl e => inl e
      | inr q' => inr (Measurement q' r o)
      end
  end.

(** Modelled from the spec: [address_qubits(program, qubit_mapping=None)]
    of pyquil.quil on the instructions of a program: every placeholder is
    resolved to a concrete index through the explicit mapping, or through
    the default one when none is given; physical qubits stay. *)
Definition address (prog : Program) (qubit_mapping : option (gmap qubit nat))
  : exn + list instr :=
  let mapping :=
    match qubit_mapping with
    | None => default_mapping prog
    | Some m => m
    end in
  traverse (address_instr mapping) (instructions prog).

(** Modelled from the spec: the call [address_qubits(prog, qubit_mapping)]
    on a program object.  The result is taken to be a new program object
    and the argument is kept as it is; that is a choice of the model, the
    notebook and the spec do not say what happens to the argument. *)
Definition address_qubits (p : nat) (qubit_mapping : option (gmap qubit nat)) : M nat :=
  prog ← deref p;
  body ← lift (address prog qubit_mapping);
  new_program body.

(** The [try] cell, for any behaviour of the method [out] of the library:
    [try: print(prog.out())  except RuntimeError as e: print(e)] *)
Definition cell_try_over (out_method : Program -> exn + string) (prog : nat) : M unit :=
  try_except
    (text ← (p ← deref prog; lift (out_method p)); print text)
    is_RuntimeError
    (fun e => print (message e)).

Section Cells.
Variable format_param : R -> string.

(** [print(prog)] for a program object. *)
Definition print_program (p : nat) : M unit :=
  prog ← deref p; print (str format_param prog).

(** [prog.out()] *)
Definition program_out (p : nat) : M string :=
  prog ← deref p; lift (out format_param prog).

(** [print(Program(H(0), CNOT(0, 1)))] *)
Definition cell_integers : M unit :=
  p ← new_program [H (Qubit 0); CNOT (Qubit 0) (Qubit 1)];
  print_program p.

(** [q0 = QubitPlaceholder(); q1 = QubitPlaceholder();
     prog = Program(H(q0), CNOT(q0, q1)); print(prog)] *)
Definition cell_placeholders : M (qubit * qubit * nat) :=
  q0 ← new_placeholder;
  q1 ← new_placeholder;
  prog ← new_program [H q0; CNOT q0 q1];
  _ ← print_program prog;
  mret (q0, q1, prog).

(** [try: print(prog.out())  except RuntimeError as e: print(e)] *)
Definition cell_try (prog : nat) : M unit :=
  cell_try_over (out format_param) prog.

(** [print(address_qubits(prog))] *)
Definition cell_default (prog : nat) : M unit :=
  addressed ← address_qubits prog None;
  print_program addressed.

(** [print(address_qubits(prog, qubit_mapping={q0: 14, q1: 19}))] *)
Definition cell_explicit (q0 q1 : qubit) (prog : nat) : M unit :=
  addressed ← address_qubits prog (Some (dict_of [(q0, 14); (q1, 19)]));
  print_program addressed.

(** [qbyte = QubitPlaceholder.register(8);
     prog2 = Program(H(q) for q in qbyte);
     print(address_qubits(prog2, {q: i*2 for i, q in enumerate(qbyte)}))] *)
Definition cell_register : M unit :=
  qbyte ← register 8;
  prog2 ← new_program (map H qbyte);
  addressed ← address_qubits prog2
                (Some (dict_of (imap (fun i q => (q, i * 2)) qbyte)));
  print_program addressed.

Definition notebook : M unit :=
  _ ← cell_integers;
  '(q0, q1, prog) ← cell_placeholders;
  _ ← cell_try prog;
  _ ← cell_default prog;
  _ ← cell_explicit q0 q1 prog;
  cell_register.
End Cells.

Definition fresh_kernel : nb := mkNb 0 [] [].

Definition is_placeholder (q : qubit) : Prop := exists id, q = QubitPlaceholder id.

(** The program of the notebook, [Program(H(q0), CNOT(q0, q1))], for the
    placeholders with identities [a] and [b]. *)
Definition bell (a b : nat) : Program :=
  mkProgram [H (QubitPlaceholder a); CNOT (QubitPlaceholder a) (QubitPlaceholder b)].

(** A program that still contains a placeholder. *)
Definition unaddressed (prog : Program) : Prop :=
  exists id, QubitPlaceholder id ∈ program_qubits prog.

End Placeholder.

(** * Properties *)

(** ** Arithmetic of the aggregation step *)

Section Aggregation.
Import Noise.
Local Open Scope Q_scope.

Lemma sum_map_foldr (f : Z * Z -> Z) (pairs : list (Z * Z)) :
  np.sum (map f pairs) = foldr (fun p acc => (f p + acc)%Z) 0%Z pairs.
Proof.
  unfold np.sum.
  induction pairs as [|p pairs IH]; simpl; [reflexivity|].
  now rewrite IH.
Qed.

Lemma mean_map (f : Z * Z -> Z) (pairs : list (Z * Z)) :
  pairs <> [] -> np.mean (map f pairs) = np.fin (mean_over f pairs).
Proof.
  intros Hne. destruct pairs as [|p pairs]; [congruence|].
  unfold np.mean, mean_over.
  change (map f (p :: pairs)) with (f p :: map f pairs) at 1.
  cbv iota.
  change (f p :: map f pairs) with (map f (p :: pairs)).
  now rewrite sum_map_foldr, length_map.
Qed.

Lemma column_pair_array (pairs : list (Z * Z)) :
  np.column 0 (pair_array pairs) = map fst pairs
  /\ np.column 1 (pair_array pairs) = map snd pairs.
Proof.
  unfold np.column, pair_array; simpl.
  split; rewrite map_map; reflexivity.
Qed.

Lemma parities_pair_array (pairs : list (Z * Z)) :
  np.mod_ (np.sum_axis1 (pair_array pairs)) 2 = map parity pairs.
Proof.
  unfold np.mod_, np.sum_axis1, pair_array; simpl.
  rewrite !map_map. apply map_ext. intros [b0 b1]. unfold parity; simpl.
  now rewrite Z.add_0_r.
Qed.

(** The statistics of a two-column array in closed form. *)
Lemma aggregate_pair_array (pairs : list (Z * Z)) :
  pairs <> [] ->
  aggregate (pair_array pairs)
  = inr (np.fin (1 - 2 * mean_over fst pairs),
         np.fin (1 - 2 * mean_over snd pairs),
         np.fin (1 - mean_over parity pairs * 2)).
Proof.
  intros Hne.
  unfold aggregate, z_single, z_pair, np.mean_axis0.
  change (np.ncols (pair_array pairs)) with 2%nat. simpl seq. simpl map.
  destruct (column_pair_array pairs) as [-> ->].
  rewrite parities_pair_array, !mean_map by assumption.
  reflexivity.
Qed.

(** The mean of a quantity that is 0 or 1 on every row lies in [0, 1]. *)
Lemma foldr_bounds (f : Z * Z -> Z) (pairs : list (Z * Z)) :
  Forall (fun p => bit (f p)) pairs ->
  (0 <= foldr (fun p acc => (f p + acc)%Z) 0%Z pairs <= Z.of_nat (length pairs))%Z.
Proof.
  induction 1 as [|p pairs Hp _ IH]; simpl length; simpl foldr; [lia|].
  destruct Hp as [-> | ->]; lia.
Qed.

Lemma mean_over_unit (f : Z * Z -> Z) (pairs : list (Z * Z)) :
  pairs <> [] -> Forall (fun p => bit (f p)) pairs ->
  0 <= mean_over f pairs /\ mean_over f pairs <= 1.
Proof.
  intros Hne Hbits. pose proof (foldr_bounds f pairs Hbits) as [Hlo Hhi].
  assert (Hn : (0 < Z.of_nat (length pairs))%Z) by (destruct pairs; [congruence | simpl; lia]).
  unfold mean_over.
  assert (Hq : 0 < inject_Z (Z.of_nat (length pairs))).
  { change 0 with (inject_Z 0). now rewrite <- Zlt_Qlt. }
  split.
  - apply Qle_shift_div_l; [assumption|]. rewrite Qmult_0_l.
    change 0 with (inject_Z 0). now rewrite <- Zle_Qle.
  - apply Qle_shift_div_r; [assumption|]. rewrite Qmult_1_l.
    now rewrite <- Zle_Qle.
Qed.

Lemma parity_bit (p : Z * Z) : bit (parity p).
Proof.
  unfold bit, parity. pose proof (Z.mod_pos_bound (p.1 + p.2) 2). lia.
Qed.

Lemma sign_product_parity (p : Z * Z) :
  bit_pair p -> sign_product p = (1 - 2 * parity p)%Z.
Proof.
  destruct p as [b0 b1]. unfold bit_pair, sign_product, parity; simpl.
  intros [[-> | ->] [-> | ->]]; reflexivity.
Qed.

Lemma foldr_sign_product (pairs : list (Z * Z)) :
  Forall bit_pair pairs ->
  foldr (fun p acc => (sign_product p + acc)%Z) 0%Z pairs
  = (Z.of_nat (length pairs) - 2 * foldr (fun p acc => (parity p + acc)%Z) 0%Z pairs)%Z.
Proof.
  induction 1 as [|p pairs Hp _ IH]; [reflexivity|].
  simpl foldr. simpl length. rewrite IH, (sign_product_parity p Hp). lia.
Qed.

Lemma stats_unit_interval (a : np.ndarray) :
  bitstring_array a ->
  exists z0 z1 zz,
    aggregate a = inr (z0, z1, zz)
    /\ in_unit_interval z0 /\ in_unit_interval z1 /\ in_unit_interval zz.
Proof.
  intros (pairs & Hne & Hbits & ->).
  rewrite aggregate_pair_array by assumption.
  do 3 eexists. split; [reflexivity|].
  assert (H0 : Forall (fun p => bit (fst p)) pairs)
    by (eapply Forall_impl; [exact Hbits | intros p [? ?]; assumption]).
  assert (H1 : Forall (fun p => bit (snd p)) pairs)
    by (eapply Forall_impl; [exact Hbits | intros p [? ?]; assumption]).
  assert (H2 : Forall (fun p => bit (parity p)) pairs)
    by (apply Forall_forall; intros; apply parity_bit).
  pose proof (mean_over_unit fst pairs Hne H0).
  pose proof (mean_over_unit snd pairs Hne H1).
  pose proof (mean_over_unit parity pairs Hne H2).
  simpl. repeat split; lra.
Qed.

End Aggregation.

(** ** The nested loop *)

Section Loops.
Import Noise.
Context {St : Type}.

Lemma for_each_app {A} (xs ys : list A) (body : A -> St -> exn + St) (s : St) :
  for_each (xs ++ ys) body s
  = match for_each xs body s with
    | inl e => inl e
    | inr s' => for_each ys body s'
    end.
Proof.
  revert s. induction xs as [|x xs IH]; intros s; simpl; [reflexivity|].
  destruct (body x s) as [e|s']; [reflexivity | apply IH].
Qed.

Lemma for_each_map {A B} (f : A -> B) (xs : list A) (body : B -> St -> exn + St) (s : St) :
  for_each (map f xs) body s = for_each xs (fun x => body (f x)) s.
Proof.
  revert s. induction xs as [|x xs IH]; intros s; simpl; [reflexivity|].
  destruct (body (f x) s) as [e|s']; [reflexivity | apply IH].
Qed.

(** Two nested loops visit the pairs in row-major order. *)
Lemma for_each_nested {A B} (xs : list A) (ys : list B)
    (body : A -> B -> St -> exn + St) (s : St) :
  for_each xs (fun x => for_each ys (body x)) s
  = for_each (flat_map (fun x => map (fun y => (x, y)) ys) xs)
      (fun p => body p.1 p.2) s.
Proof.
  revert s. induction xs as [|x xs IH]; intros s; simpl; [reflexivity|].
  rewrite for_each_app, for_each_map. simpl.
  destruct (for_each ys (body x) s) as [e|s']; [reflexivity | apply IH].
Qed.
End Loops.

Lemma lookup_row_major {A B} (xs : list A) (ys : list B) (i j : nat) (x : A) (y : B) :
  xs !! i = Some x -> ys !! j = Some y ->
  flat_map (fun x => map (fun y => (x, y)) ys) xs !! (i * length ys + j) = Some (x, y).
Proof.
  revert i. induction xs as [|x' xs IH]; intros i Hx Hy; [destruct i; discriminate|].
  simpl flat_map. destruct i as [|i]; simpl in Hx.
  - injection Hx as ->. simpl.
    rewrite lookup_app_l by (rewrite length_map; eapply lookup_lt_Some; eassumption).
    rewrite list_lookup_fmap, Hy. reflexivity.
  - rewrite lookup_app_r by (rewrite length_map; simpl; lia).
    rewrite length_map.
    replace (S i * length ys + j - length ys) with (i * length ys + j) by (simpl; lia).
    now apply IH.
Qed.

Lemma length_row_major {A B} (xs : list A) (ys : list B) :
  length (flat_map (fun x => map (fun y => (x, y)) ys) xs) = length xs * length ys.
Proof.
  induction xs as [|x xs IH]; simpl; [reflexivity|].
  now rewrite length_app, length_map, IH.
Qed.

Section SweepFacts.
Import Quil Noise.
Variable lib : library.

Lemma aggregate_two_columns (a : np.ndarray) :
  np.ncols a = 2 -> aggregate a = inr (stats a).
Proof.
  intros Hc. unfold aggregate, stats, z_single, np.mean_axis0. rewrite Hc. reflexivity.
Qed.

Lemma bitstring_array_two_columns (a : np.ndarray) :
  bitstring_array a -> np.ncols a = 2.
Proof. intros (pairs & _ & _ & ->). reflexivity. Qed.

Lemma sweep_is_grid_loop (run : simulator) (s : state) :
  sweep_from lib run s = for_each grid (fun p => body lib run p.1 p.2) s.
Proof. unfold sweep_from, grid. apply for_each_nested. Qed.

(** When every answer of the simulator has two columns, no iteration
    raises, and each one appends its record and its job. *)
Lemma grid_loop_result (run : simulator) (g : list (R * R)) (s : state) :
  (forall k p, np.ncols (run k p) = 2) ->
  for_each g (fun p => body lib run p.1 p.2) s
  = inr {| records := records s
             ++ imap (fun n p => record_at lib run (length (submitted s) + n) p) g;
           submitted := submitted s
             ++ map (fun p => noisy_program lib p.1 p.2) g |}.
Proof.
  intros Hrun. revert s. induction g as [|p g IH]; intros s.
  - simpl. rewrite !app_nil_r. now destruct s.
  - simpl for_each. unfold body at 1.
    rewrite aggregate_two_columns by apply Hrun.
    destruct (stats _) as [[z0 z1] zz] eqn:Hstats.
    rewrite IH. simpl records. simpl submitted. f_equal. f_equal.
    + rewrite <- app_assoc. f_equal. simpl. f_equal.
      * unfold record_at. rewrite Nat.add_0_r, Hstats. reflexivity.
      * apply imap_ext. intros n q _. simpl. rewrite length_app. simpl.
        f_equal. lia.
    + now rewrite <- app_assoc.
Qed.

Lemma sweep_result (run : simulator) :
  (forall k p, np.ncols (run k p) = 2) ->
  sweep lib run
  = inr {| records := imap (fun n p => record_at lib run n p) grid;
           submitted := map (fun p => noisy_program lib p.1 p.2) grid |}.
Proof.
  intros Hrun. unfold sweep. rewrite sweep_is_grid_loop, grid_loop_result by assumption.
  reflexivity.
Qed.

(** Two simulators that give the same answers at the grid points cannot be
    told apart by the loop, whether it ends normally or raises. *)
Lemma grid_loop_deterministic (run1 run2 : simulator) (g : list (R * R)) (s : state) :
  (forall n p, g !! n = Some p ->
     run1 (length (submitted s) + n) (noisy_program lib p.1 p.2)
     = run2 (length (submitted s) + n) (noisy_program lib p.1 p.2)) ->
  for_each g (fun p => body lib run1 p.1 p.2) s
  = for_each g (fun p => body lib run2 p.1 p.2) s.
Proof.
  revert s. induction g as [|p g IH]; intros s Hsame; [reflexivity|].
  simpl for_each. unfold body at 1 3.
  pose proof (Hsame 0 p eq_refl) as H0. rewrite Nat.add_0_r in H0. rewrite H0.
  destruct (aggregate _) as [e|[[z0 z1] zz]]; [reflexivity|].
  apply IH. intros n q Hq. simpl submitted. rewrite length_app. simpl.
  replace (length (submitted s) + 1 + n) with (length (submitted s) + S n) by lia.
  now apply Hsame.
Qed.

Lemma length_thetas : length thetas = 20.
Proof. unfold thetas, np.linspace. now rewrite length_map, length_seq. Qed.

Lemma length_t1s : length t1s = 3.
Proof. unfold t1s, np.logspace, np.linspace. now rewrite !length_map, length_seq. Qed.

Lemma length_grid : length grid = 60.
Proof.
  unfold grid. now rewrite length_row_major, length_thetas, length_t1s.
Qed.

Lemma thetas_ends : thetas !! 0 = Some (- PI)%R /\ thetas !! 19 = Some PI.
Proof.
  unfold thetas, np.linspace. split; simpl; f_equal; field; lra.
Qed.

Lemma t1s_ends : t1s !! 0 = Some (Rpower 10 (-6)) /\ t1s !! 2 = Some (Rpower 10 (-5)).
Proof.
  unfold t1s, np.logspace, np.linspace. split; simpl; do 2 f_equal; field.
Qed.

Lemma dom_make_record (z0 z1 zz : np.float) (theta t1 : R) :
  dom (make_record z0 z1 zz theta t1) = record_keys.
Proof.
  unfold make_record, dict_of, record_keys. simpl.
  rewrite !dom_insert_L, dom_empty_L. set_solver.
Qed.

Lemma lookup_make_record (z0 z1 zz : np.float) (theta t1 : R) :
  let r := make_record z0 z1 zz theta t1 in
  r !! "z0" = Some (Stat z0) /\ r !! "z1" = Some (Stat z1) /\ r !! "zz" = Some (Stat zz)
  /\ r !! "theta" = Some (Param theta) /\ r !! "t1" = Some (Param t1).
Proof.
  unfold make_record, dict_of. simpl. repeat split; by simplify_map_eq.
Qed.
End SweepFacts.

(** ** Dictionaries, traversals and placeholders *)

Section Dict.
Context `{Countable K} {V : Type}.

Lemma foldl_insert_lookup (items : list (K * V)) (m : gmap K V) (k : K) (v : V) :
  NoDup (items.*1) ->
  (foldl (fun m kv => <[kv.1 := kv.2]> m) m items) !! k = Some v
  <-> (k, v) ∈ items \/ ((k ∉ items.*1) /\ m !! k = Some v).
Proof.
  revert m. induction items as [|[k' v'] items IH]; intros m Hnd.
  - simpl. split.
    + intros Hm. right. split; [apply not_elem_of_nil | exact Hm].
    + intros [Hin | [_ Hm]]; [now apply elem_of_nil in Hin | exact Hm].
  - apply NoDup_cons in Hnd as [Hk' Hnd]. simpl foldl. rewrite (IH _ Hnd).
    rewrite fmap_cons. simpl. rewrite elem_of_cons, not_elem_of_cons.
    destruct (decide (k = k')) as [->|Hne].
    + rewrite lookup_insert_eq. split.
      * intros [Hin | [_ [= ->]]]; [|now left; left].
        exfalso. apply Hk'. apply list_elem_of_fmap. now exists (k', v).
      * intros [[[= ->] | Hin] | [[Hc _] _]]; [right; now split | | congruence].
        exfalso. apply Hk'. apply list_elem_of_fmap. now exists (k', v).
    + rewrite lookup_insert_ne by congruence. split.
      * intros [Hin | [Hnot Hm]]; [left; now right | right; repeat split; assumption].
      * intros [[[= -> ->] | Hin] | [[_ Hnot] Hm]];
          [congruence | now left | right; now split].
Qed.

Lemma dict_of_lookup (items : list (K * V)) (k : K) (v : V) :
  NoDup (items.*1) -> dict_of items !! k = Some v <-> (k, v) ∈ items.
Proof.
  intros Hnd. unfold dict_of. rewrite foldl_insert_lookup by assumption.
  rewrite lookup_empty. split; [intros [?|[_ ?]]; [assumption | discriminate] | now left].
Qed.
End Dict.

Lemma elem_of_concat {A} (x : A) (ls : list (list A)) :
  x ∈ concat ls <-> exists l, x ∈ l /\ l ∈ ls.
Proof.
  induction ls as [|l ls IH]; simpl.
  - split; [intros Hx; now apply elem_of_nil in Hx | intros (l & _ & Hl); now apply elem_of_nil in Hl].
  - rewrite elem_of_app, IH. split.
    + intros [Hx | (l' & Hx & Hl')]; [exists l; split; [assumption | left] |].
      exists l'. split; [assumption | now right].
    + intros (l' & Hx & Hl'). apply elem_of_cons in Hl' as [-> | Hl']; [now left|].
      right. now exists l'.
Qed.

Section Traverse.
Import Placeholder.
Context {A B : Type} (f : A -> exn + B).

Lemma traverse_inr (xs : list A) (ys : list B) :
  traverse f xs = inr ys <-> Forall2 (fun x y => f x = inr y) xs ys.
Proof.
  revert ys. induction xs as [|x xs IH]; intros ys; simpl.
  - split; [intros [= <-]; constructor | intros Hf; now inversion Hf].
  - destruct (f x) as [e|y] eqn:Hx.
    + split; [discriminate | intros Hf; inversion Hf; congruence].
    + destruct (traverse f xs) as [e|ys'] eqn:Hxs.
      * split; [discriminate|]. intros Hf. inversion Hf as [|? y' ? ys'' _ Hrest]; subst.
        apply IH in Hrest. discriminate.
      * split.
        -- intros [= <-]. constructor; [assumption | now apply IH].
        -- intros Hf. inversion Hf as [|? y' ? ys'' Hy Hrest]; subst.
           apply IH in Hrest. congruence.
Qed.

(** A failing traversal raises what one of its elements raised. *)
Lemma traverse_inl (xs : list A) (e : exn) :
  traverse f xs = inl e -> exists x, x ∈ xs /\ f x = inl e.
Proof.
  induction xs as [|x xs IH]; simpl; [discriminate|].
  destruct (f x) as [e'|y] eqn:Hx.
  - intros [= ->]. exists x. split; [left | assumption].
  - destruct (traverse f xs) as [e'|ys]; [|discriminate].
    intros [= ->]. destruct (IH eq_refl) as (x' & Hin & Hx').
    exists x'. split; [now right | assumption].
Qed.

Lemma traverse_raises (xs : list A) (x : A) (e : exn) :
  x ∈ xs -> f x = inl e -> exists e', traverse f xs = inl e'.
Proof.
  intros Hin Hx. destruct (traverse f xs) as [e'|ys] eqn:Ht; [now exists e'|].
  apply traverse_inr in Ht.
  apply list_elem_of_lookup in Hin as [i Hi].
  destruct (Forall2_lookup_l _ _ _ _ _ Ht Hi) as (y & _ & Hy). congruence.
Qed.
End Traverse.

Section OutFacts.
Import Quil Placeholder.
Variable format_param : R -> string.

Lemma qubit_out_inl (q : qubit) (e : exn) :
  qubit_out q = inl e -> is_RuntimeError e = true.
Proof. destruct q; simpl; [discriminate | now intros [= <-]]. Qed.

Lemma instr_out_inl (i : instr) (e : exn) :
  instr_out format_param i = inl e -> is_RuntimeError e = true.
Proof.
  destruct i as [name ps qs | q r o]; simpl.
  - destruct (traverse qubit_out qs) as [e'|ts] eqn:Ht; [|discriminate].
    intros [= ->]. apply traverse_inl in Ht as (q & _ & Hq). eapply qubit_out_inl, Hq.
  - destruct (qubit_out q) as [e'|t] eqn:Hq; [|discriminate].
    intros [= ->]. eapply qubit_out_inl, Hq.
Qed.

Lemma instr_out_raises (i : instr) (id : nat) :
  QubitPlaceholder id ∈ instr_qubits i -> exists e, instr_out format_param i = inl e.
Proof.
  destruct i as [name ps qs | q r o]; simpl; intros Hin.
  - destruct (traverse_raises qubit_out qs (QubitPlaceholder id) _ Hin eq_refl) as [e ->].
    now exists e.
  - apply list_elem_of_singleton in Hin as <-. simpl. eauto.
Qed.

(** [out] raises a [RuntimeError] on every program that still has a
    placeholder. *)
Lemma out_unaddressed (prog : Program) :
  unaddressed prog -> exists msg, out format_param prog = inl (RuntimeError msg).
Proof.
  intros [id Hid]. unfold program_qubits in Hid.
  apply elem_of_concat in Hid as (qs & Hq & Hqs).
  apply list_elem_of_fmap in Hqs as (i & -> & Hi).
  destruct (instr_out_raises i id Hq) as [e He].
  destruct (traverse_raises _ _ _ _ Hi He) as [e' He'].
  unfold out. rewrite He'.
  apply traverse_inl in He' as (i' & _ & Hi').
  apply instr_out_inl in Hi'. destruct e'; try discriminate. eauto.
Qed.
End OutFacts.

Section AddressFacts.
Import Quil Placeholder.

Lemma first_seen_elem (seen qs : list qubit) (q : qubit) :
  q ∈ first_seen seen qs <-> q ∈ seen \/ (q ∈ qs /\ is_placeholder q).
Proof.
  revert seen. induction qs as [|q' qs IH]; intros seen; simpl.
  - split; [now left | intros [?|[Hq _]]; [assumption | now apply elem_of_nil in Hq]].
  - destruct q' as [i|id].
    + rewrite IH, elem_of_cons. split.
      * intros [?|[? ?]]; [now left | right; split; [now right | assumption]].
      * intros [?|[[->|?] Hp]]; [now left | destruct Hp; discriminate | right; now split].
    + destruct (decide (QubitPlaceholder id ∈ seen)) as [Hin|Hnot];
        rewrite IH, ?elem_of_app, ?list_elem_of_singleton, elem_of_cons.
      * split.
        -- intros [?|[? ?]]; [now left | right; split; [now right | assumption]].
        -- intros [?|[[->|?] Hp]]; [now left | now left | right; now split].
      * split.
        -- intros [[?| ->]|[? ?]];
             [now left | right; split; [now left | now exists id]
             | right; split; [now right | assumption]].
        -- intros [?|[[->|?] Hp]]; [left; now left | left; now right | right; now split].
Qed.

Lemma first_seen_NoDup (seen qs : list qubit) :
  NoDup seen -> NoDup (first_seen seen qs).
Proof.
  revert seen. induction qs as [|q' qs IH]; intros seen Hnd; simpl; [assumption|].
  destruct q' as [i|id]; [now apply IH|].
  destruct (decide (QubitPlaceholder id ∈ seen)) as [Hin|Hnot]; apply IH; [assumption|].
  apply NoDup_app. repeat split; [assumption | | apply NoDup_singleton].
  intros x Hx Hx'. apply list_elem_of_singleton in Hx' as ->. contradiction.
Qed.

(** While the list is scanned, what has been seen stays in front, in its
    order. *)
Lemma first_seen_prefix (seen qs : list qubit) :
  exists rest, first_seen seen qs = seen ++ rest.
Proof.
  revert seen. induction qs as [|q' qs IH]; intros seen; simpl.
  - exists []. now rewrite app_nil_r.
  - destruct q' as [i|id]; [apply IH|].
    destruct (decide (QubitPlaceholder id ∈ seen)); [apply IH|].
    destruct (IH (seen ++ [QubitPlaceholder id])) as [rest ->].
    exists (QubitPlaceholder id :: rest). now rewrite <- app_assoc.
Qed.

Lemma placeholders_NoDup (prog : Program) : NoDup (placeholders prog).
Proof. apply first_seen_NoDup, NoDup_nil_2. Qed.

Lemma placeholders_elem (prog : Program) (q : qubit) :
  q ∈ placeholders prog <-> q ∈ program_qubits prog /\ is_placeholder q.
Proof.
  unfold placeholders. rewrite first_seen_elem. split; [|now right].
  intros [Hq|?]; [now apply elem_of_nil in Hq | assumption].
Qed.

(** The default mapping numbers the placeholders by first use: the
    [i]-th new placeholder gets index [i], and nothing else is mapped. *)
Lemma default_mapping_lookup (prog : Program) (q : qubit) (i : nat) :
  default_mapping prog !! q = Some i <-> placeholders prog !! i = Some q.
Proof.
  unfold default_mapping. rewrite dict_of_lookup.
  - rewrite elem_of_lookup_imap. split.
    + intros (k & q' & [= -> ->] & Hk). assumption.
    + intros Hi. now exists i, q.
  - rewrite fmap_imap.
    rewrite (imap_ext _ (fun _ q => q) (placeholders prog)) by reflexivity.
    change (fun (_ : nat) (q : qubit) => q) with (@const (qubit -> qubit) nat (fun q => q)).
    rewrite imap_const, list_fmap_id. apply placeholders_NoDup.
Qed.

Lemma default_mapping_inj (prog : Program) (q q' : qubit) (i : nat) :
  default_mapping prog !! q = Some i -> default_mapping prog !! q' = Some i -> q = q'.
Proof. rewrite !default_mapping_lookup. congruence. Qed.

Lemma default_mapping_total (prog : Program) (q : qubit) :
  q ∈ program_qubits prog -> is_placeholder q ->
  exists i, default_mapping prog !! q = Some i /\ i < length (placeholders prog).
Proof.
  intros Hq Hp.
  assert (Hin : q ∈ placeholders prog) by now apply placeholders_elem.
  apply list_elem_of_lookup in Hin as [i Hi]. exists i. split.
  - now apply default_mapping_lookup.
  - eapply lookup_lt_Some, Hi.
Qed.

Lemma Forall2_concat {A B} (P : A -> B -> Prop) (ls : list (list A)) (ks : list (list B)) :
  Forall2 (Forall2 P) ls ks -> Forall2 P (concat ls) (concat ks).
Proof.
  induction 1 as [|l k ls ks Hlk _ IH]; simpl; [constructor | now apply Forall2_app].
Qed.

Lemma address_instr_qubits (m : gmap qubit nat) (i i' : instr) :
  address_instr m i = inr i' ->
  Forall2 (fun q q' => address_qubit m q = inr q') (instr_qubits i) (instr_qubits i').
Proof.
  destruct i as [name ps qs | q r o]; simpl.
  - destruct (traverse (address_qubit m) qs) as [e|qs'] eqn:Ht; [discriminate|].
    intros [= <-]. simpl. now apply traverse_inr.
  - destruct (address_qubit m q) as [e|q'] eqn:Hq; [discriminate|].
    intros [= <-]. simpl. now repeat constructor.
Qed.

(** The qubits of an addressed program are the images of the qubits of
    the program, position by position. *)
Lemma address_qubits_related (prog : Program) (mapping : option (gmap qubit nat))
    (body : list instr) :
  address prog mapping = inr body ->
  Forall2 (fun q q' => address_qubit (default (default_mapping prog) mapping) q = inr q')
    (program_qubits prog) (program_qubits (mkProgram body)).
Proof.
  unfold address. intros Ht.
  replace (match mapping with Some m => m | None => default_mapping prog end)
    with (default (default_mapping prog) mapping) in Ht by now destruct mapping.
  apply traverse_inr in Ht. unfold program_qubits. simpl.
  apply Forall2_concat, Forall2_fmap.
  eapply Forall2_impl; [exact Ht|]. intros i i'. apply address_instr_qubits.
Qed.

(** Addressing succeeds as soon as the mapping covers the placeholders
    of the program. *)
Lemma address_succeeds (prog : Program) (mapping : option (gmap qubit nat)) :
  (forall q, q ∈ program_qubits prog -> is_placeholder q ->
     is_Some (default (default_mapping prog) mapping !! q)) ->
  exists body, address prog mapping = inr body.
Proof.
  intros Hcov. destruct (address prog mapping) as [e|body] eqn:Ha; [|now exists body].
  exfalso. unfold address in Ha.
  replace (match mapping with Some m => m | None => default_mapping prog end)
    with (default (default_mapping prog) mapping) in Ha by now destruct mapping.
  apply traverse_inl in Ha as (i & Hi & Hie).
  assert (Hsub : forall q, q ∈ instr_qubits i -> q ∈ program_qubits prog).
  { intros q Hq. unfold program_qubits. apply elem_of_concat.
    exists (instr_qubits i). split; [assumption|].
    apply list_elem_of_fmap. now exists i. }
  assert (Hq : forall q, q ∈ instr_qubits i ->
            address_qubit (default (default_mapping prog) mapping) q = inl e -> False).
  { intros q Hin. destruct q as [k|id]; simpl; [discriminate|].
    destruct (Hcov (QubitPlaceholder id) (Hsub _ Hin)) as [k ->]; [now exists id | discriminate]. }
  destruct i as [name ps qs | q r o]; simpl in Hie, Hq.
  - destruct (traverse _ qs) as [e'|qs'] eqn:Ht; [|discriminate].
    injection Hie as ->. apply traverse_inl in Ht as (q & Hin & Hqe). eapply Hq; eassumption.
  - destruct (address_qubit _ q) as [e'|q'] eqn:Hqe; [|discriminate].
    injection Hie as ->. eapply (Hq q); [apply list_elem_of_singleton; reflexivity | assumption].
Qed.
End AddressFacts.

(** ** The models at work *)

Section Examples.
Import Quil Noise Placeholder.

(** Four shots: the first qubit reads 1 in two of them, the second in
    three, and the parity is odd in three. *)
Example aggregate_four_shots :
  exists z0 z1 zz,
    aggregate (pair_array [(0, 1); (1, 1); (0, 1); (1, 0)]%Z)
    = inr (np.fin z0, np.fin z1, np.fin zz)
    /\ (z0 == 0 /\ z1 == - (1 # 2) /\ zz == - (1 # 2))%Q.
Proof. do 3 eexists. split; [reflexivity|]. repeat split; reflexivity. Qed.

(** No shot at all: the means are [nan]. *)
Example aggregate_no_shot :
  aggregate (np.mkArray 2 []) = inr (np.nan, np.nan, np.nan).
Proof. reflexivity. Qed.

(** Three measured bits per shot: the unpacking raises. *)
Example aggregate_three_columns :
  aggregate (np.mkArray 3 [[0; 1; 1]; [1; 1; 0]]%Z)
  = inl (ValueError "too many values to unpack").
Proof. reflexivity. Qed.

(** What the placeholder notebook prints, cell by cell. *)
Example notebook_output :
  stdout (notebook (fun _ => "") fresh_kernel).2
  = [ lines ["H 0"; "CNOT 0 1"];
      lines ["H {q0}"; "CNOT {q0} {q1}"];
      "Qubit q0 has not been assigned an index";
      lines ["H 0"; "CNOT 0 1"];
      lines ["H 14"; "CNOT 14 19"];
      lines ["H 0"; "H 2"; "H 4"; "H 6"; "H 8"; "H 10"; "H 12"; "H 14"] ].
Proof. vm_compute. reflexivity. Qed.
End Examples.

(** ** The noise investigation *)

Section NoiseClaims.
Import Quil Noise.
Local Open Scope Q_scope.

Lemma float_mul_comm (x y : float) : (x * y)%float = (y * x)%float.
Proof.
  apply Prim2SF_inj. rewrite !mul_spec. unfold SF64mul, SFmul.
  destruct (Prim2SF x) as [sx|sx| |sx mx ex], (Prim2SF y) as [sy|sy| |sy my ey];
    try reflexivity; rewrite (xorb_comm sx sy); try reflexivity.
  now rewrite (Pos.mul_comm mx my), (Z.add_comm ex ey).
Qed.

Lemma float_mean_map (f : Z * Z -> Z) (pairs : list (Z * Z)) :
  Float64.mean (map f pairs)
  = (Float64.of_int (Float64.count f pairs)
     / Float64.of_int (Z.of_nat (length pairs)))%float.
Proof. unfold Float64.mean, Float64.count. now rewrite sum_map_foldr, length_map. Qed.

Lemma float_z_pair_pair_array (pairs : list (Z * Z)) :
  Float64.z_pair (pair_array pairs)
  = Float64.expectation (Float64.count parity pairs) (Z.of_nat (length pairs)).
Proof.
  unfold Float64.z_pair, Float64.expectation.
  rewrite parities_pair_array, float_mean_map. f_equal. apply float_mul_comm.
Qed.

(** C1 (as amended).  For a non-empty array whose rows are pairs of bits
    (fewer than 2^53 of them) the aggregation step returns
    z0 = 1 - 2 * (ones in the first column / rows),
    z1 = 1 - 2 * (ones in the second column / rows) and
    zz = 1 - 2 * (rows of odd parity / rows),
    where the counts are exact integers and the division, the product and
    the difference are float64 operations: the stored values are the
    rounded evaluations of the three formulas. *)
Theorem aggregate_float_expectations (pairs : list (Z * Z)) :
  pairs <> [] -> Forall bit_pair pairs -> (Z.of_nat (length pairs) < 2 ^ 53)%Z ->
  Float64.aggregate (pair_array pairs)
  = inr (Float64.expectation (Float64.count fst pairs) (Z.of_nat (length pairs)),
         Float64.expectation (Float64.count snd pairs) (Z.of_nat (length pairs)),
         Float64.expectation (Float64.count parity pairs) (Z.of_nat (length pairs))).
Proof.
  intros _ _ _. unfold Float64.aggregate, Float64.z_single, Float64.mean_axis0.
  change (np.ncols (pair_array pairs)) with 2%nat. cbn [seq map].
  destruct (column_pair_array pairs) as [-> ->].
  rewrite !float_mean_map, float_z_pair_pair_array. reflexivity.
Qed.

Lemma aggregate_float_expectations_witness :
  let pairs := [(0, 1); (1, 1); (0, 0); (1, 0); (1, 1)]%Z in
  pairs <> [] /\ Forall bit_pair pairs /\ (Z.of_nat (length pairs) < 2 ^ 53)%Z
  /\ Float64.aggregate (pair_array pairs)
     = inr (Float64.expectation 3 5, Float64.expectation 3 5, Float64.expectation 2 5).
Proof.
  intros pairs.
  assert (Hne : pairs <> []) by discriminate.
  assert (Hbits : Forall bit_pair pairs)
    by (repeat constructor; simpl; (now left) || (now right)).
  assert (Hlen : (Z.of_nat (length pairs) < 2 ^ 53)%Z) by reflexivity.
  split; [exact Hne|]. split; [exact Hbits|]. split; [exact Hlen|].
  exact (aggregate_float_expectations pairs Hne Hbits Hlen).
Defined.

(** C1 as it was stated fails: with one 1 among three first bits the code
    stores z0 = 0.33333333333333337, which is the rational
    6004799503160662 / 2^54 and not 1 - 2 * (1/3) = 1/3. *)
Lemma aggregate_not_exact :
  exists z0 z1 zz q,
    Float64.aggregate (pair_array Float64.one_in_three) = inr (z0, z1, zz)
    /\ Float64.exact_value z0 = Some q
    /\ ~ q == spec_z0 Float64.one_in_three.
Proof.
  eexists _, _, _, _. split; [reflexivity|]. split; [vm_compute; reflexivity|].
  vm_compute. discriminate.
Qed.

(** C2 (as amended).  For a non-empty array of bit pairs (fewer than 2^53
    rows) with [odd] rows of odd parity among [n]: the parity formula
    1 - 2 * (odd / n) and the mean of the sign products, (n - 2 * odd) / n,
    are the same rational number; the value the code stores as zz is the
    float64 evaluation of the first, and the float64 mean of the products
    (1 - 2*b0) * (1 - 2*b1) is the float64 evaluation of the second. *)
Theorem parity_zz_and_sign_product_mean (pairs : list (Z * Z)) :
  pairs <> [] -> Forall bit_pair pairs -> (Z.of_nat (length pairs) < 2 ^ 53)%Z ->
  let n := Z.of_nat (length pairs) in
  let odd := Float64.count parity pairs in
  spec_zz pairs == spec_zz_signs pairs
  /\ spec_zz pairs == 1 - 2 * (inject_Z odd / inject_Z n)
  /\ spec_zz_signs pairs == inject_Z (n - 2 * odd) / inject_Z n
  /\ Float64.z_pair (pair_array pairs) = Float64.expectation odd n
  /\ Float64.mean (map sign_product pairs)
     = (Float64.of_int (n - 2 * odd) / Float64.of_int n)%float.
Proof.
  intros Hne Hbits _ n odd.
  assert (Hn : ~ inject_Z n == 0).
  { subst n. destruct pairs as [|p pairs]; [congruence|]. simpl length.
    change 0 with (inject_Z 0). rewrite inject_Z_injective. lia. }
  assert (Hsigns : Float64.count sign_product pairs = (n - 2 * odd)%Z)
    by apply (foldr_sign_product pairs Hbits).
  assert (H2 : spec_zz pairs == 1 - 2 * (inject_Z odd / inject_Z n)) by reflexivity.
  assert (H3 : spec_zz_signs pairs == inject_Z (n - 2 * odd) / inject_Z n).
  { unfold spec_zz_signs, mean_over. fold (Float64.count sign_product pairs).
    rewrite Hsigns. reflexivity. }
  split.
  { rewrite H2, H3. unfold Z.sub. rewrite inject_Z_plus, inject_Z_opp, inject_Z_mult.
    change (inject_Z 2) with 2. field. exact Hn. }
  split; [exact H2|]. split; [exact H3|]. split.
  - apply float_z_pair_pair_array.
  - rewrite float_mean_map. now rewrite Hsigns.
Qed.

Lemma parity_zz_and_sign_product_mean_witness :
  let pairs := [(0, 1); (1, 1); (0, 0); (1, 0)]%Z in
  pairs <> [] /\ Forall bit_pair pairs /\ (Z.of_nat (length pairs) < 2 ^ 53)%Z
  /\ spec_zz pairs == spec_zz_signs pairs
  /\ Float64.z_pair (pair_array pairs) = Float64.expectation 2 4
  /\ Float64.mean (map sign_product pairs)
     = (Float64.of_int 0 / Float64.of_int 4)%float.
Proof.
  intros pairs.
  assert (Hne : pairs <> []) by discriminate.
  assert (Hbits : Forall bit_pair pairs)
    by (repeat constructor; simpl; (now left) || (now right)).
  assert (Hlen : (Z.of_nat (length pairs) < 2 ^ 53)%Z) by reflexivity.
  split; [exact Hne|]. split; [exact Hbits|]. split; [exact Hlen|].
  destruct (parity_zz_and_sign_product_mean pairs Hne Hbits Hlen)
    as (Heq & _ & _ & Hzz & Hmean).
  split; [exact Heq|]. split; [exact Hzz | exact Hmean].
Defined.

(** C2 as it was stated fails in the code's arithmetic: for the three shots
    01, 11, 00 the stored zz is 0.33333333333333337 and the float64 mean
    of the sign products -1, 1, 1 is 0.3333333333333333. *)
Lemma parity_zz_differs_from_sign_product_mean :
  Float64.z_pair (pair_array Float64.one_odd_in_three)
  <> Float64.mean (map sign_product Float64.one_odd_in_three).
Proof.
  intros Heq. apply (f_equal Prim2SF) in Heq. vm_compute in Heq. discriminate.
Qed.

Lemma counting_simulator_bitstrings (k : nat) (job : Program) :
  bitstring_array (counting_simulator k job).
Proof.
  exists [(0, 1); (1, 1); (Z.of_nat k mod 2, 0)]%Z.
  split; [discriminate|]. split; [|reflexivity].
  constructor; [split; simpl; [now left | now right]|].
  constructor; [split; simpl; now right|].
  constructor; [|constructor].
  split; simpl; [|now left].
  unfold bit. pose proof (Z.mod_pos_bound (Z.of_nat k) 2 eq_refl). lia.
Qed.

(** C10.  For a non-empty array of bit pairs each of z0, z1 and zz lies
    in [-1, 1]; so, when the simulator answers every job with such an
    array, the sweep ends normally and every record it appended holds
    values of z0, z1 and zz in [-1, 1]. *)
Theorem expectations_in_unit_interval
    (lib : library) (run : simulator) (a : np.ndarray) :
  bitstring_array a ->
  (forall k job, bitstring_array (run k job)) ->
  (exists z0 z1 zz,
     aggregate a = inr (z0, z1, zz)
     /\ in_unit_interval z0 /\ in_unit_interval z1 /\ in_unit_interval zz)
  /\ exists s,
       sweep lib run = inr s
       /\ forall r, r ∈ records s ->
          exists z0 z1 zz,
            r !! "z0" = Some (Stat z0) /\ r !! "z1" = Some (Stat z1)
            /\ r !! "zz" = Some (Stat zz)
            /\ in_unit_interval z0 /\ in_unit_interval z1 /\ in_unit_interval zz.
Proof.
  intros Ha Hrun. split; [now apply stats_unit_interval|].
  eexists. split.
  { apply sweep_result. intros k job. apply bitstring_array_two_columns, Hrun. }
  cbn [records]. intros r Hr.
  apply elem_of_lookup_imap in Hr as (k & [theta t1] & -> & _).
  unfold record_at. cbn [fst snd].
  destruct (stats_unit_interval _ (Hrun k (noisy_program lib theta t1)))
    as (z0 & z1 & zz & Hagg & H0 & H1 & H2).
  rewrite aggregate_two_columns in Hagg
    by (apply bitstring_array_two_columns, Hrun).
  assert (Hs : stats (run k (noisy_program lib theta t1)) = (z0, z1, zz)) by congruence.
  rewrite Hs.
  destruct (lookup_make_record z0 z1 zz theta t1) as (L0 & L1 & L2 & _).
  exists z0, z1, zz. repeat split; assumption.
Qed.

Lemma expectations_in_unit_interval_witness :
  let a := pair_array [(1, 1); (0, 1)]%Z in
  bitstring_array a
  /\ (forall k job, bitstring_array (counting_simulator k job))
  /\ (exists z0 z1 zz,
       aggregate a = inr (z0, z1, zz)
       /\ in_unit_interval z0 /\ in_unit_interval z1 /\ in_unit_interval zz)
  /\ exists s,
       sweep plain_library counting_simulator = inr s
       /\ forall r, r ∈ records s ->
          exists z0 z1 zz,
            r !! "z0" = Some (Stat z0) /\ r !! "z1" = Some (Stat z1)
            /\ r !! "zz" = Some (Stat zz)
            /\ in_unit_interval z0 /\ in_unit_interval z1 /\ in_unit_interval zz.
Proof.
  intros a.
  assert (Ha : bitstring_array a).
  { exists [(1, 1); (0, 1)]%Z. split; [discriminate|]. split; [|reflexivity].
    repeat constructor; simpl; (now left) || (now right). }
  split; [exact Ha|]. split; [exact counting_simulator_bitstrings|].
  exact (expectations_in_unit_interval plain_library counting_simulator a
           Ha counting_simulator_bitstrings).
Defined.

(** C5.  The sweep is one nested loop, theta outside (20 values, the
    first -pi and the last pi) and t1 inside (3 values).  When every
    answer of the simulator has two columns it ends normally with exactly
    60 records; the record and the job of the grid point (theta_i, t1_j)
    are at position 3*i + j; the job is the compiled program with the
    declared register, noise added with T1 = t1 and T2 = t1/2, the two
    measurements and 1000 shots; every record has exactly the keys z0,
    z1, zz, theta, t1. *)
Theorem sweep_sixty_records (lib : library) (run : simulator) :
  (forall k job, np.ncols (run k job) = 2%nat) ->
  (length thetas = 20%nat /\ thetas !! 0%nat = Some (- PI)%R /\ thetas !! 19%nat = Some PI
   /\ length t1s = 3%nat
   /\ t1s !! 0%nat = Some (Rpower 10 (-6)) /\ t1s !! 2%nat = Some (Rpower 10 (-5)))
  /\ exists s,
       sweep lib run = inr s
       /\ length (records s) = 60%nat
       /\ length (submitted s) = 60%nat
       /\ (forall i j theta t1,
            thetas !! i = Some theta -> t1s !! j = Some t1 ->
            let prog_ro := declare lib (get_compiled_prog theta) "ro" 2 in
            let job :=
              wrap_in_numshots_loop lib
                (inst lib (add_decoherence_noise lib prog_ro.1 t1 (t1 / 2)%R)
                   [MEASURE 0 prog_ro.2 0; MEASURE 1 prog_ro.2 1])
                1000 in
            submitted s !! (i * 3 + j)%nat = Some job
            /\ exists z0 z1 zz,
                 aggregate (run (i * 3 + j)%nat job) = inr (z0, z1, zz)
                 /\ records s !! (i * 3 + j)%nat = Some (make_record z0 z1 zz theta t1))
       /\ (forall r, r ∈ records s -> dom r = record_keys).
Proof.
  intros Hrun. split.
  { pose proof thetas_ends as [? ?]. pose proof t1s_ends as [? ?].
    pose proof length_thetas. pose proof length_t1s.
    repeat split; assumption. }
  eexists. split; [now apply sweep_result|].
  cbn [records submitted]. split; [|split; [|split]].
  - now rewrite length_imap, length_grid.
  - now rewrite length_map, length_grid.
  - intros i j theta t1 Hi Hj.
    assert (Hg : grid !! (i * 3 + j)%nat = Some (theta, t1)).
    { unfold grid. rewrite <- length_t1s. now apply lookup_row_major. }
    assert (Hjob : noisy_program lib theta t1
                   = wrap_in_numshots_loop lib
                       (inst lib
                          (add_decoherence_noise lib
                             (declare lib (get_compiled_prog theta) "ro" 2).1 t1 (t1 / 2)%R)
                          [MEASURE 0 (declare lib (get_compiled_prog theta) "ro" 2).2 0;
                           MEASURE 1 (declare lib (get_compiled_prog theta) "ro" 2).2 1])
                       1000).
    { unfold noisy_program. now destruct (declare lib (get_compiled_prog theta) "ro" 2). }
    rewrite <- Hjob. split.
    { now rewrite list_lookup_fmap, Hg. }
    destruct (stats (run (i * 3 + j)%nat (noisy_program lib theta t1)))
      as [[z0 z1] zz] eqn:Hstats.
    exists z0, z1, zz. split.
    + rewrite aggregate_two_columns by apply Hrun. now rewrite Hstats.
    + rewrite list_lookup_imap, Hg. cbn [fmap option_fmap option_map].
      unfold record_at. cbn [fst snd]. now rewrite Hstats.
  - intros r Hr. apply elem_of_lookup_imap in Hr as (k & p & -> & _).
    unfold record_at. destruct (stats _) as [[z0 z1] zz]. apply dom_make_record.
Qed.

Lemma sweep_sixty_records_witness :
  (forall k job, np.ncols (counting_simulator k job) = 2%nat)
  /\ exists s,
       sweep plain_library counting_simulator = inr s
       /\ length (records s) = 60%nat
       /\ (forall r, r ∈ records s -> dom r = record_keys).
Proof.
  assert (Hrun : forall k job, np.ncols (counting_simulator k job) = 2%nat)
    by (intros k job; reflexivity).
  split; [exact Hrun|].
  destruct (sweep_sixty_records plain_library counting_simulator Hrun)
    as (_ & s & Hs & Hlen & _ & _ & Hkeys).
  exists s. split; [exact Hs|]. split; [exact Hlen | exact Hkeys].
Defined.

(** C6.  For every theta, get_compiled_prog(theta) is a sequence of
    exactly 15 instructions, each of them RZ, RX(pi/2), RX(-pi/2) or CZ on
    qubits 0 and 1; the instruction at position 7 is RZ(theta, 1), and the
    programs for two angles differ in that instruction only: putting
    RZ(theta2, 1) at position 7 of the program for theta1 gives the
    program for theta2. *)
Theorem compiled_prog_depends_on_theta_once (theta1 theta2 : R) :
  length (instructions (get_compiled_prog theta1)) = 15%nat
  /\ Forall native (instructions (get_compiled_prog theta1))
  /\ instructions (get_compiled_prog theta1) !! 7%nat = Some (RZ theta1 1)
  /\ <[7%nat := RZ theta2 1]> (instructions (get_compiled_prog theta1))
     = instructions (get_compiled_prog theta2)
  /\ (get_compiled_prog theta1 = get_compiled_prog theta2 <-> theta1 = theta2).
Proof.
  split; [reflexivity|]. split; [|split; [reflexivity|split; [reflexivity|]]].
  - assert (H0 : Forall on_01 [Qubit 0]) by (repeat constructor; now left).
    assert (H1 : Forall on_01 [Qubit 1]) by (repeat constructor; now right).
    assert (H10 : Forall on_01 [Qubit 1; Qubit 0])
      by (constructor; [now right | constructor; [now left | constructor]]).
    unfold get_compiled_prog, RZ, RX, CZ; cbn [instructions].
    repeat (apply List.Forall_cons; [unfold native; tauto|]).
    apply List.Forall_nil.
  - split; [|now intros ->].
    intros Heq. apply (f_equal (fun p => instructions p !! 7%nat)) in Heq.
    cbn in Heq. unfold RZ in Heq. congruence.
Qed.

(** C7.  Two runs of the sweep whose simulators give the same bitstring
    array at each of the sixty grid points (the [k]-th call with the job
    of the [k]-th grid point) end in the same way: the same records in the
    same order, the same jobs, or the same error. *)
Theorem sweep_deterministic (lib : library) (run1 run2 : simulator) :
  (forall k point, grid !! k = Some point ->
     run1 k (noisy_program lib point.1 point.2)
     = run2 k (noisy_program lib point.1 point.2)) ->
  sweep lib run1 = sweep lib run2.
Proof.
  intros Hsame. unfold sweep. rewrite !sweep_is_grid_loop.
  apply grid_loop_deterministic. exact Hsame.
Qed.

Lemma simulators_agree_on_grid (k : nat) (point : R * R) :
  grid !! k = Some point ->
  counting_simulator k (noisy_program plain_library point.1 point.2)
  = late_simulator k (noisy_program plain_library point.1 point.2).
Proof.
  intros Hk. apply lookup_lt_Some in Hk. rewrite length_grid in Hk.
  unfold late_simulator. now rewrite (proj2 (Nat.ltb_lt k 60) Hk).
Qed.

Lemma sweep_deterministic_witness :
  (forall k point, grid !! k = Some point ->
     counting_simulator k (noisy_program plain_library point.1 point.2)
     = late_simulator k (noisy_program plain_library point.1 point.2))
  /\ sweep plain_library counting_simulator = sweep plain_library late_simulator.
Proof.
  split; [exact simulators_agree_on_grid|].
  exact (sweep_deterministic plain_library counting_simulator late_simulator
           simulators_agree_on_grid).
Defined.
End NoiseClaims.

(** ** The placeholder notebook: what the kernel does *)

Section KernelFacts.
Import Quil Placeholder.
Variable format_param : R -> string.

Lemma register_run (n : nat) (s : nb) :
  register n s
  = (inr (map QubitPlaceholder (seq (next_id s) n)),
     {| next_id := next_id s + n; heap := heap s; stdout := stdout s |}).
Proof.
  revert s. induction n as [|n IH]; intros s.
  - simpl. unfold mret, M_ret. rewrite Nat.add_0_r. now destruct s.
  - cbn [register]. unfold mbind, M_bind, new_placeholder. rewrite IH.
    unfold mret, M_ret. cbn [next_id heap stdout seq map].
    do 2 f_equal. lia.
Qed.

Lemma address_qubits_run (p : nat) (mapping : option (gmap qubit nat)) (s : nb)
    (prog : Program) :
  heap s !! p = Some prog ->
  address_qubits p mapping s
  = match address prog mapping with
    | inl e => (inl e, s)
    | inr body =>
        (inr (length (heap s)),
         {| next_id := next_id s; heap := heap s ++ [mkProgram body]; stdout := stdout s |})
    end.
Proof.
  intros Hp. unfold address_qubits, mbind, M_bind, deref, lift, new_program.
  rewrite Hp. now destruct (address prog mapping).
Qed.

Lemma print_program_run (p : nat) (s : nb) (prog : Program) :
  heap s !! p = Some prog ->
  print_program format_param p s
  = (inr (), {| next_id := next_id s; heap := heap s;
                stdout := stdout s ++ [str format_param prog] |}).
Proof.
  intros Hp. unfold print_program, mbind, M_bind, deref. now rewrite Hp.
Qed.

(** A cell [print(address_qubits(prog, ...))] whose addressing succeeds. *)
Lemma address_and_print (p : nat) (mapping : option (gmap qubit nat)) (s : nb)
    (prog : Program) (body : list instr) :
  heap s !! p = Some prog -> address prog mapping = inr body ->
  (addressed ← address_qubits p mapping; print_program format_param addressed) s
  = (inr (), {| next_id := next_id s; heap := heap s ++ [mkProgram body];
                stdout := stdout s ++ [str format_param (mkProgram body)] |}).
Proof.
  intros Hp Ha. unfold mbind at 1. unfold M_bind at 1.
  rewrite (address_qubits_run p mapping s prog Hp), Ha.
  rewrite (print_program_run _ _ (mkProgram body)); [reflexivity|].
  cbn [heap]. apply list_lookup_middle. reflexivity.
Qed.

(** The same cell when the addressing raises: nothing catches it. *)
Lemma address_and_print_raises (p : nat) (mapping : option (gmap qubit nat)) (s : nb)
    (prog : Program) (e : exn) :
  heap s !! p = Some prog -> address prog mapping = inl e ->
  (addressed ← address_qubits p mapping; print_program format_param addressed) s
  = (inl e, s).
Proof.
  intros Hp Ha. unfold mbind at 1. unfold M_bind at 1.
  now rewrite (address_qubits_run p mapping s prog Hp), Ha.
Qed.

Lemma address_two_qubit_program (m : gmap qubit nat) (a b i j : nat) :
  m !! QubitPlaceholder a = Some i -> m !! QubitPlaceholder b = Some j ->
  traverse (address_instr m)
    [H (QubitPlaceholder a); CNOT (QubitPlaceholder a) (QubitPlaceholder b)]
  = inr [H (Qubit i); CNOT (Qubit i) (Qubit j)].
Proof. intros Ha Hb. simpl. now rewrite Ha, Hb. Qed.

Lemma explicit_mapping_lookup (a b : nat) :
  a <> b ->
  let m : gmap qubit nat :=
    dict_of [(QubitPlaceholder a, 14); (QubitPlaceholder b, 19)] in
  m !! QubitPlaceholder a = Some 14 /\ m !! QubitPlaceholder b = Some 19.
Proof.
  intros Hab m. subst m. unfold dict_of. cbn [foldl fst snd]. split.
  - rewrite lookup_insert_ne by congruence. apply lookup_insert_eq.
  - apply lookup_insert_eq.
Qed.

Lemma placeholders_bell (a b : nat) :
  a <> b -> placeholders (bell a b) = [QubitPlaceholder a; QubitPlaceholder b].
Proof.
  intros Hab. unfold placeholders, program_qubits, bell. cbn.
  rewrite decide_False by apply not_elem_of_nil. cbn.
  rewrite decide_True by (apply list_elem_of_singleton; reflexivity).
  rewrite decide_False; [reflexivity|].
  rewrite list_elem_of_singleton. congruence.
Qed.

Lemma address_qubit_inl (m : gmap qubit nat) (q : qubit) (e : exn) :
  address_qubit m q = inl e -> exists msg, e = KeyError msg.
Proof.
  destruct q as [i|id]; simpl; [discriminate|].
  destruct (m !! QubitPlaceholder id); [discriminate|]. intros [= <-]. eauto.
Qed.

Lemma address_instr_inl (m : gmap qubit nat) (i : instr) (e : exn) :
  address_instr m i = inl e -> exists msg, e = KeyError msg.
Proof.
  destruct i as [name ps qs | q r o]; simpl.
  - destruct (traverse (address_qubit m) qs) as [e'|qs'] eqn:Ht; [|discriminate].
    intros [= ->]. apply traverse_inl in Ht as (q & _ & Hq). eapply address_qubit_inl, Hq.
  - destruct (address_qubit m q) as [e'|q'] eqn:Hq; [|discriminate].
    intros [= ->]. eapply address_qubit_inl, Hq.
Qed.

(** A placeholder that the explicit mapping does not know makes the
    addressing raise a [KeyError]. *)
Lemma address_unmapped (prog : Program) (m : gmap qubit nat) (id : nat) :
  QubitPlaceholder id ∈ program_qubits prog -> m !! QubitPlaceholder id = None ->
  exists msg, address prog (Some m) = inl (KeyError msg).
Proof.
  intros Hin Hm. unfold program_qubits in Hin.
  apply elem_of_concat in Hin as (qs & Hq & Hqs).
  apply list_elem_of_fmap in Hqs as (i & -> & Hi).
  assert (Hfail : exists e, address_instr m i = inl e).
  { destruct i as [name ps qs | q r o]; simpl in Hq |- *.
    - assert (Hq1 : address_qubit m (QubitPlaceholder id)
                    = inl (KeyError ("q" +:+ pretty id))) by (simpl; now rewrite Hm).
      destruct (traverse_raises _ _ _ _ Hq Hq1) as [e ->]. eauto.
    - apply list_elem_of_singleton in Hq as <-. simpl. rewrite Hm. eauto. }
  destruct Hfail as [e He].
  destruct (traverse_raises _ _ _ _ Hi He) as [e' He'].
  unfold address. rewrite He'.
  apply traverse_inl in He' as (i' & _ & Hi').
  apply address_instr_inl in Hi' as [msg ->]. eauto.
Qed.
End KernelFacts.

Section SweepErrors.
Import Noise.

Lemma aggregate_bad_shape (a : np.ndarray) :
  np.ncols a <> 2 -> exists msg, aggregate a = inl (ValueError msg).
Proof.
  intros Hc. unfold aggregate, z_single, np.mean_axis0.
  destruct (np.ncols a) as [|[|[|n]]]; [| |congruence|]; simpl; eauto.
Qed.

Lemma sweep_raises_at_first_point (lib : library) (run : simulator) (point : R * R) :
  grid !! 0 = Some point ->
  np.ncols (run 0 (noisy_program lib point.1 point.2)) <> 2 ->
  exists msg, sweep lib run = inl (ValueError msg).
Proof.
  intros Hg Hc. unfold sweep. rewrite sweep_is_grid_loop.
  destruct grid as [|p g]; [discriminate|]. injection Hg as ->.
  cbn [for_each]. unfold body. cbn [submitted length].
  destruct (aggregate_bad_shape _ Hc) as [msg ->]. eauto.
Qed.
End SweepErrors.

(** ** The placeholder notebook *)

Section PlaceholderClaims.
Import Quil Placeholder.

Lemma cell_try_over_raises (out_method : Program -> exn + string)
    (s : nb) (p : nat) (prog : Program) (e : exn) :
  heap s !! p = Some prog -> out_method prog = inl e ->
  cell_try_over out_method p s
  = match e with
    | RuntimeError msg =>
        (inr (), {| next_id := next_id s; heap := heap s; stdout := stdout s ++ [msg] |})
    | _ => (inl e, s)
    end.
Proof.
  intros Hp He. unfold cell_try_over, try_except, mbind, M_bind, deref, lift.
  rewrite Hp, He. now destruct e.
Qed.

(** C3.  [prog.out()] on a program that still has a placeholder raises a
    RuntimeError; the [try] cell catches it and prints its message, and
    nothing else of the kernel changes: no program object, no exception
    left.  The cell catches exactly that class: whatever [out] does, a
    RuntimeError it raises is printed, and an error of any other class
    leaves the cell, with nothing printed.  No other code catches anything:
    on a program of placeholders a KeyError of [address_qubits] leaves its
    cell, and a ValueError of the unpacking ends the sweep. *)
Theorem unaddressed_out_is_caught
    (format_param : R -> string) (s : nb) (p : nat) (prog : Program) :
  heap s !! p = Some prog -> unaddressed prog ->
  (exists msg,
     program_out format_param p s = (inl (RuntimeError msg), s)
     /\ cell_try format_param p s
        = (inr (), {| next_id := next_id s; heap := heap s;
                      stdout := stdout s ++ [msg] |}))
  /\ cell_try format_param p s = cell_try_over (out format_param) p s
  /\ (forall out_method msg,
        out_method prog = inl (RuntimeError msg) ->
        cell_try_over out_method p s
        = (inr (), {| next_id := next_id s; heap := heap s;
                      stdout := stdout s ++ [msg] |}))
  /\ (forall out_method e,
        out_method prog = inl e -> (forall msg, e <> RuntimeError msg) ->
        cell_try_over out_method p s = (inl e, s))
  /\ (Forall is_placeholder (program_qubits prog) ->
      forall q0 q1 id,
        QubitPlaceholder id ∈ program_qubits prog ->
        QubitPlaceholder id <> q0 -> QubitPlaceholder id <> q1 ->
        exists msg, cell_explicit format_param q0 q1 p s = (inl (KeyError msg), s))
  /\ (forall lib run point,
        Noise.grid !! 0 = Some point ->
        np.ncols (run 0 (Noise.noisy_program lib point.1 point.2)) <> 2 ->
        exists msg, Noise.sweep lib run = inl (ValueError msg)).
Proof.
  intros Hp Hun. split; [|split; [reflexivity|split; [|split; [|split]]]].
  - destruct (out_unaddressed format_param prog Hun) as [msg Hout].
    exists msg. split.
    + unfold program_out, mbind, M_bind, deref, lift. now rewrite Hp, Hout.
    + unfold cell_try. now rewrite (cell_try_over_raises _ s p prog _ Hp Hout).
  - intros out_method msg Hout.
    now rewrite (cell_try_over_raises _ s p prog _ Hp Hout).
  - intros out_method e Hout Hclass.
    rewrite (cell_try_over_raises _ s p prog _ Hp Hout).
    destruct e as [msg| |]; [now destruct (Hclass msg) | reflexivity..].
  - intros _ q0 q1 id Hin H0 H1.
    assert (Hm : (dict_of [(q0, 14); (q1, 19)] : gmap qubit nat)
                   !! QubitPlaceholder id = None).
    { unfold dict_of. cbn [foldl fst snd].
      rewrite !lookup_insert_ne by congruence. apply lookup_empty. }
    destruct (address_unmapped prog _ id Hin Hm) as [msg Hfail].
    exists msg. unfold cell_explicit.
    now apply (address_and_print_raises format_param p _ s prog).
  - intros lib run point. apply sweep_raises_at_first_point.
Qed.

Lemma unaddressed_out_is_caught_witness :
  let s := mkNb 2 [bell 0 1] [] in
  heap s !! 0 = Some (bell 0 1) /\ unaddressed (bell 0 1)
  /\ (exists msg,
       program_out (fun _ => "") 0 s = (inl (RuntimeError msg), s)
       /\ cell_try (fun _ => "") 0 s
          = (inr (), {| next_id := 2; heap := [bell 0 1]; stdout := [msg] |}))
  /\ cell_try_over (fun _ => inl (ValueError "other")) 0 s
     = (inl (ValueError "other"), s).
Proof.
  intros s.
  assert (Hp : heap s !! 0 = Some (bell 0 1)) by reflexivity.
  assert (Hun : unaddressed (bell 0 1)) by (exists 0; simpl; left).
  split; [exact Hp|]. split; [exact Hun|].
  destruct (unaddressed_out_is_caught (fun _ => "") s 0 (bell 0 1) Hp Hun)
    as (Hcaught & _ & _ & Hother & _).
  split; [exact Hcaught|].
  apply (Hother (fun _ => inl (ValueError "other")) _ eq_refl).
  intros msg. discriminate.
Defined.

(** C4.  With the explicit mapping {q0: 14, q1: 19}, addressing
    Program(H(q0), CNOT(q0, q1)) gives a new program H 14; CNOT 14 19; its
    only qubits are 14 and 19; the cell prints that program. *)
Theorem explicit_mapping_is_applied
    (format_param : R -> string) (s : nb) (p a b : nat) :
  a <> b -> heap s !! p = Some (bell a b) ->
  let mapping : gmap qubit nat :=
    dict_of [(QubitPlaceholder a, 14); (QubitPlaceholder b, 19)] in
  let addressed := [H (Qubit 14); CNOT (Qubit 14) (Qubit 19)] in
  address (bell a b) (Some mapping) = inr addressed
  /\ address_qubits p (Some mapping) s
     = (inr (length (heap s)),
        {| next_id := next_id s; heap := heap s ++ [mkProgram addressed];
           stdout := stdout s |})
  /\ Forall (fun q => q = Qubit 14 \/ q = Qubit 19) (program_qubits (mkProgram addressed))
  /\ cell_explicit format_param (QubitPlaceholder a) (QubitPlaceholder b) p s
     = (inr (), {| next_id := next_id s; heap := heap s ++ [mkProgram addressed];
                   stdout := stdout s ++ [lines ["H 14"; "CNOT 14 19"]] |}).
Proof.
  intros Hab Hp mapping addressed.
  destruct (explicit_mapping_lookup a b Hab) as [Ha Hb]. fold mapping in Ha, Hb.
  assert (Haddr : address (bell a b) (Some mapping) = inr addressed)
    by (unfold address, bell; now apply address_two_qubit_program).
  split; [exact Haddr|]. split; [|split].
  - now rewrite (address_qubits_run p _ s _ Hp), Haddr.
  - subst addressed. unfold program_qubits. cbn.
    repeat (apply List.Forall_cons; [tauto|]). apply List.Forall_nil.
  - unfold cell_explicit. fold mapping.
    now rewrite (address_and_print format_param p _ s _ addressed Hp Haddr).
Qed.

Lemma explicit_mapping_is_applied_witness :
  let s := mkNb 2 [bell 0 1] [] in
  0 <> 1 /\ heap s !! 0 = Some (bell 0 1)
  /\ address (bell 0 1)
       (Some (dict_of [(QubitPlaceholder 0, 14); (QubitPlaceholder 1, 19)]))
     = inr [H (Qubit 14); CNOT (Qubit 14) (Qubit 19)].
Proof.
  intros s.
  assert (Hab : 0 <> 1) by lia.
  assert (Hp : heap s !! 0 = Some (bell 0 1)) by reflexivity.
  split; [exact Hab|]. split; [exact Hp|].
  exact (proj1 (explicit_mapping_is_applied (fun _ => "") s 0 0 1 Hab Hp)).
Defined.

Lemma first_seen_app (seen l1 l2 : list qubit) :
  first_seen seen (l1 ++ l2) = first_seen (first_seen seen l1) l2.
Proof.
  revert seen. induction l1 as [|q l1 IH]; intros seen; [reflexivity|].
  simpl. destruct q as [i|id]; [apply IH|].
  destruct (decide (QubitPlaceholder id ∈ seen)); apply IH.
Qed.

(** Among placeholders, the list of first uses is as long as the set of
    the qubits is large. *)
Lemma first_seen_size (l : list qubit) :
  Forall is_placeholder l ->
  length (first_seen [] l) = size (list_to_set l : gset qubit).
Proof.
  intros Hph. rewrite Forall_forall in Hph.
  rewrite <- (size_list_to_set (C := gset qubit) (first_seen [] l))
    by apply first_seen_NoDup, NoDup_nil_2.
  f_equal. apply set_eq. intros q. rewrite !elem_of_list_to_set, first_seen_elem.
  split.
  - intros [Hq | [Hq _]]; [now apply elem_of_nil in Hq | exact Hq].
  - intros Hq. right. split; [exact Hq | now apply Hph].
Qed.

(** A placeholder met for the first time at position [i] is the next one
    in the list of first uses. *)
Lemma placeholders_at_first_use (prog : Program) (i : nat) (q : qubit) :
  program_qubits prog !! i = Some q -> is_placeholder q ->
  q ∉ take i (program_qubits prog) ->
  placeholders prog !! length (first_seen [] (take i (program_qubits prog))) = Some q.
Proof.
  intros Hi [id ->] Hnew. unfold placeholders.
  assert (E : first_seen [] (program_qubits prog)
              = first_seen (first_seen [] (take i (program_qubits prog))
                            ++ [QubitPlaceholder id])
                  (drop (S i) (program_qubits prog))).
  { rewrite <- (take_drop_middle _ _ _ Hi) at 1.
    rewrite first_seen_app. simpl.
    rewrite decide_False; [reflexivity|].
    rewrite first_seen_elem. intros [Hq | [Hq _]]; [now apply elem_of_nil in Hq|].
    now apply Hnew. }
  rewrite E.
  destruct (first_seen_prefix
              (first_seen [] (take i (program_qubits prog)) ++ [QubitPlaceholder id])
              (drop (S i) (program_qubits prog))) as [rest ->].
  rewrite <- app_assoc. apply list_lookup_middle. reflexivity.
Qed.

(** C9.  Without a mapping, [address_qubits] numbers the placeholders
    0, 1, 2, ... in the order in which the program first uses them:
    Program(H(q0), CNOT(q0, q1)) becomes H 0; CNOT 0 1.  For a program
    whose qubits come from a register of N placeholders the addressing
    succeeds and the qubits of the result follow those of the program
    position by position: a placeholder used for the first time gets the
    number of different placeholders used before it, a placeholder used
    again gets the index it got before, two different placeholders never
    get the same index, and every index is below N. *)
Theorem default_mapping_counts_from_zero
    (N : nat) (s s' : nb) (reg : list qubit) (prog : Program) (a b : nat) :
  a <> b ->
  register N s = (inr reg, s') ->
  (forall q, q ∈ program_qubits prog -> q ∈ reg) ->
  address (bell a b) None = inr [H (Qubit 0); CNOT (Qubit 0) (Qubit 1)]
  /\ exists body,
       address prog None = inr body
       /\ length (program_qubits (mkProgram body)) = length (program_qubits prog)
       /\ (forall i q,
             program_qubits prog !! i = Some q ->
             q ∉ take i (program_qubits prog) ->
             program_qubits (mkProgram body) !! i
             = Some (Qubit (size (list_to_set (take i (program_qubits prog))
                                  : gset qubit))))
       /\ (forall i j q,
             program_qubits prog !! i = Some q -> program_qubits prog !! j = Some q ->
             program_qubits (mkProgram body) !! i = program_qubits (mkProgram body) !! j)
       /\ (forall i j q',
             program_qubits (mkProgram body) !! i = Some q' ->
             program_qubits (mkProgram body) !! j = Some q' ->
             program_qubits prog !! i = program_qubits prog !! j)
       /\ (forall i q',
             program_qubits (mkProgram body) !! i = Some q' ->
             exists k, q' = Qubit k /\ k < N).
Proof.
  intros Hab Hreg Hsub. rewrite register_run in Hreg. injection Hreg as <- _.
  split.
  { unfold address. unfold bell at 2. cbn [instructions].
    apply address_two_qubit_program; apply default_mapping_lookup;
      now rewrite placeholders_bell. }
  assert (Hph : forall q, q ∈ program_qubits prog -> is_placeholder q).
  { intros q Hq. apply Hsub, list_elem_of_fmap in Hq as (id & -> & _). now exists id. }
  assert (Hlen : length (placeholders prog) <= N).
  { apply Nat.le_trans with (length (map QubitPlaceholder (seq (next_id s) N))).
    - apply submseteq_length, NoDup_submseteq; [apply placeholders_NoDup|].
      intros q Hq. apply placeholders_elem in Hq as [Hq _]. now apply Hsub.
    - now rewrite length_map, length_seq. }
  destruct (address_succeeds prog None) as [body Hbody].
  { intros q Hq Hp. destruct (default_mapping_total prog q Hq Hp) as (i & Hi & _).
    simpl. rewrite Hi. eauto. }
  exists body. split; [exact Hbody|].
  pose proof (address_qubits_related prog None body Hbody) as Hrel. simpl in Hrel.
  apply Forall2_same_length_lookup in Hrel as [Hl Hrel].
  (* what the result holds at a position of the program *)
  assert (Hat : forall i q, program_qubits prog !! i = Some q ->
            exists k, default_mapping prog !! q = Some k
                      /\ program_qubits (mkProgram body) !! i = Some (Qubit k)
                      /\ k < N).
  { intros i q Hq.
    assert (Hin : q ∈ program_qubits prog) by (apply list_elem_of_lookup; eauto).
    destruct (default_mapping_total prog q Hin (Hph q Hin)) as (k & Hk & Hlt).
    destruct (lookup_lt_is_Some_2 (program_qubits (mkProgram body)) i) as [q' Hq'].
    { rewrite <- Hl. eapply lookup_lt_Some, Hq. }
    specialize (Hrel i q q' Hq Hq'). destruct (Hph q Hin) as [id ->].
    simpl in Hrel. rewrite Hk in Hrel. injection Hrel as <-.
    exists k. split; [exact Hk|]. split; [exact Hq' | lia]. }
  split; [now symmetry|]. split; [|split; [|split]].
  - intros i q Hq Hnew.
    assert (Hin : q ∈ program_qubits prog) by (apply list_elem_of_lookup; eauto).
    destruct (Hat i q Hq) as (k & Hk & Hres & _). rewrite Hres. do 2 f_equal.
    pose proof (placeholders_at_first_use prog i q Hq (Hph q Hin) Hnew) as Hfirst.
    apply default_mapping_lookup in Hfirst. rewrite Hfirst in Hk. injection Hk as <-.
    apply first_seen_size, Forall_forall. intros q' Hq'.
    apply Hph. apply elem_of_take in Hq' as (i' & Hi' & _).
    apply list_elem_of_lookup. eauto.
  - intros i j q Hi Hj.
    destruct (Hat i q Hi) as (k & Hk & Hres & _).
    destruct (Hat j q Hj) as (k' & Hk' & Hres' & _). congruence.
  - intros i j q' Hi Hj.
    destruct (lookup_lt_is_Some_2 (program_qubits prog) i) as [qi Hqi];
      [rewrite Hl; eapply lookup_lt_Some, Hi|].
    destruct (lookup_lt_is_Some_2 (program_qubits prog) j) as [qj Hqj];
      [rewrite Hl; eapply lookup_lt_Some, Hj|].
    destruct (Hat i qi Hqi) as (k & Hk & Hres & _).
    destruct (Hat j qj Hqj) as (k' & Hk' & Hres' & _).
    rewrite Hqi, Hqj. f_equal.
    apply (default_mapping_inj prog qi qj k); congruence.
  - intros i q' Hi.
    destruct (lookup_lt_is_Some_2 (program_qubits prog) i) as [qi Hqi];
      [rewrite Hl; eapply lookup_lt_Some, Hi|].
    destruct (Hat i qi Hqi) as (k & _ & Hres & Hlt).
    exists k. split; [congruence | exact Hlt].
Qed.

Lemma default_mapping_counts_from_zero_witness :
  let reg := [QubitPlaceholder 0; QubitPlaceholder 1; QubitPlaceholder 2] in
  let prog := mkProgram [H (QubitPlaceholder 2);
                         CNOT (QubitPlaceholder 2) (QubitPlaceholder 0);
                         H (QubitPlaceholder 1)] in
  0 <> 1
  /\ register 3 fresh_kernel = (inr reg, mkNb 3 [] [])
  /\ (forall q, q ∈ program_qubits prog -> q ∈ reg)
  /\ address (bell 0 1) None = inr [H (Qubit 0); CNOT (Qubit 0) (Qubit 1)]
  /\ address prog None = inr [H (Qubit 0); CNOT (Qubit 0) (Qubit 1); H (Qubit 2)].
Proof.
  intros reg prog.
  assert (Hab : 0 <> 1) by lia.
  assert (Hreg : register 3 fresh_kernel = (inr reg, mkNb 3 [] [])) by reflexivity.
  assert (Hsub : forall q, q ∈ program_qubits prog -> q ∈ reg).
  { intros q Hq. cbn in Hq. subst reg.
    repeat (apply elem_of_cons in Hq as [-> | Hq]);
      [do 2 right; left | do 2 right; left | left | right; left
      | now apply elem_of_nil in Hq]. }
  split; [exact Hab|]. split; [exact Hreg|]. split; [exact Hsub|].
  destruct (default_mapping_counts_from_zero 3 fresh_kernel (mkNb 3 [] []) reg prog 0 1
              Hab Hreg Hsub) as (Hbell & _).
  split; [exact Hbell | reflexivity].
Defined.
End PlaceholderClaims.

(** * Further properties of the notebooks *)

(** ** When the sweep completes and when it stops *)

Section SweepCompletion.
Import Quil Noise.
Variable lib : library.

Lemma aggregate_inl (a : np.ndarray) (e : exn) :
  aggregate a = inl e -> exists msg, e = ValueError msg.
Proof.
  unfold aggregate, unpack2.
  destruct (z_single a) as [|x [|y [|z l]]]; intros [= <-]; eauto.
Qed.

(** The loop over a list of grid points only looks at the answers to the
    calls it makes. *)
Lemma grid_loop_result_on (run : simulator) (g : list (R * R)) (s : state) :
  (forall n p, g !! n = Some p ->
     np.ncols (run (length (submitted s) + n) (noisy_program lib p.1 p.2)) = 2) ->
  for_each g (fun p => body lib run p.1 p.2) s
  = inr {| records := records s
             ++ imap (fun n p => record_at lib run (length (submitted s) + n) p) g;
           submitted := submitted s
             ++ map (fun p => noisy_program lib p.1 p.2) g |}.
Proof.
  revert s. induction g as [|p g IH]; intros s Hrun.
  - simpl. rewrite !app_nil_r. now destruct s.
  - simpl for_each. unfold body at 1.
    pose proof (Hrun 0 p eq_refl) as H0. rewrite Nat.add_0_r in H0.
    rewrite (aggregate_two_columns _ H0).
    destruct (stats _) as [[z0 z1] zz] eqn:Hstats.
    rewrite IH.
    + cbn [records submitted]. f_equal. f_equal.
      * rewrite <- app_assoc. f_equal. simpl. f_equal.
        -- unfold record_at. rewrite Nat.add_0_r, Hstats. reflexivity.
        -- apply imap_ext. intros n q _. simpl. rewrite length_app. simpl.
           f_equal. lia.
      * now rewrite <- app_assoc.
    + intros n q Hq. cbn [submitted]. rewrite length_app. simpl.
      replace (length (submitted s) + 1 + n) with (length (submitted s) + S n) by lia.
      now apply Hrun.
Qed.

Lemma grid_loop_fails (run : simulator) (g : list (R * R)) (s : state) (k : nat) (p : R * R) :
  g !! k = Some p ->
  np.ncols (run (length (submitted s) + k) (noisy_program lib p.1 p.2)) <> 2 ->
  exists msg, for_each g (fun p => body lib run p.1 p.2) s = inl (ValueError msg).
Proof.
  revert s k. induction g as [|q g IH]; intros s k Hk Hbad; [destruct k; discriminate|].
  simpl for_each. unfold body at 1.
  destruct (aggregate (run (length (submitted s)) (noisy_program lib q.1 q.2)))
    as [e|[[z0 z1] zz]] eqn:Hagg.
  - apply aggregate_inl in Hagg as [msg ->]. eauto.
  - destruct k as [|k].
    + injection Hk as ->. rewrite Nat.add_0_r in Hbad.
      destruct (aggregate_bad_shape _ Hbad) as [msg Hmsg]. congruence.
    + apply (IH _ k); [exact Hk|]. cbn [submitted]. rewrite length_app. simpl.
      replace (length (submitted s) + 1 + k) with (length (submitted s) + S k) by lia.
      exact Hbad.
Qed.

(** X1.  The sweep ends normally as soon as the answers to its own sixty
    calls have two columns, whatever the simulator would answer to other
    calls; its records and jobs are then those of the grid points, in the
    order of the loop. *)
Theorem sweep_completes_on_grid (run : simulator) :
  (forall k point, grid !! k = Some point ->
     np.ncols (run k (noisy_program lib point.1 point.2)) = 2) ->
  sweep lib run
  = inr {| records := imap (fun k point => record_at lib run k point) grid;
           submitted := map (fun point => noisy_program lib point.1 point.2) grid |}.
Proof.
  intros Hrun. unfold sweep. rewrite sweep_is_grid_loop.
  rewrite grid_loop_result_on; [reflexivity|]. exact Hrun.
Qed.

(** X2.  One answer with a number of columns other than two, at any of the
    sixty calls, ends the sweep with a ValueError: the unpacking of
    [z0, z1] is not guarded. *)
Theorem sweep_stops_on_bad_shape (run : simulator) (k : nat) (point : R * R) :
  grid !! k = Some point ->
  np.ncols (run k (noisy_program lib point.1 point.2)) <> 2 ->
  exists msg, sweep lib run = inl (ValueError msg).
Proof.
  intros Hk Hbad. unfold sweep. rewrite sweep_is_grid_loop.
  now apply (grid_loop_fails run grid _ k point).
Qed.
End SweepCompletion.

Lemma sweep_completes_on_grid_witness :
  (forall k point, Noise.grid !! k = Some point ->
     np.ncols (Noise.counting_simulator k
                 (Noise.noisy_program Noise.plain_library point.1 point.2)) = 2)
  /\ exists s, Noise.sweep Noise.plain_library Noise.counting_simulator = inr s
               /\ length (Noise.records s) = 60.
Proof.
  assert (Hrun : forall k point, Noise.grid !! k = Some point ->
            np.ncols (Noise.counting_simulator k
                        (Noise.noisy_program Noise.plain_library point.1 point.2)) = 2)
    by (intros k point _; reflexivity).
  split; [exact Hrun|].
  eexists. split.
  - exact (sweep_completes_on_grid Noise.plain_library Noise.counting_simulator Hrun).
  - cbn [Noise.records]. now rewrite length_imap, length_grid.
Defined.

Lemma sweep_stops_on_bad_shape_witness :
  exists point,
    Noise.grid !! 17 = Some point
    /\ np.ncols (Noise.faulty_simulator 17
                   (Noise.noisy_program Noise.plain_library point.1 point.2)) <> 2
    /\ exists msg, Noise.sweep Noise.plain_library Noise.faulty_simulator
                   = inl (ValueError msg).
Proof.
  destruct (lookup_lt_is_Some_2 Noise.grid 17) as [point Hpoint];
    [rewrite length_grid; lia|].
  assert (Hbad : np.ncols (Noise.faulty_simulator 17
                   (Noise.noisy_program Noise.plain_library point.1 point.2)) <> 2)
    by (cbn; lia).
  exists point. split; [exact Hpoint|]. split; [exact Hbad|].
  exact (sweep_stops_on_bad_shape Noise.plain_library Noise.faulty_simulator 17 point
           Hpoint Hbad).
Defined.

(** ** More on the statistics of one array *)

Section Statistics.
Import Noise.
Local Open Scope Q_scope.

Lemma sum_Permutation (xs ys : list Z) : xs ≡ₚ ys -> np.sum xs = np.sum ys.
Proof.
  unfold np.sum. induction 1 as [|x xs ys _ IH|x y xs|xs ys zs _ IH1 _ IH2]; simpl; lia.
Qed.

Lemma mean_Permutation (xs ys : list Z) : xs ≡ₚ ys -> np.mean xs = np.mean ys.
Proof.
  intros Hp. pose proof (sum_Permutation xs ys Hp) as Hs.
  pose proof (Permutation_length Hp) as Hl.
  destruct xs as [|x xs], ys as [|y ys]; try discriminate; [reflexivity|].
  unfold np.mean. now rewrite Hs, Hl.
Qed.

(** X3.  The statistics do not depend on the order of the shots: two
    arrays with the same number of columns whose rows are a permutation of
    each other give the same result, be it values or an error. *)
Theorem aggregate_ignores_shot_order (a b : np.ndarray) :
  np.ncols a = np.ncols b -> np.rows a ≡ₚ np.rows b -> aggregate a = aggregate b.
Proof.
  intros Hc Hp.
  assert (Hsingle : z_single a = z_single b).
  { unfold z_single, np.mean_axis0. rewrite Hc. f_equal.
    apply map_ext. intros j. apply mean_Permutation.
    unfold np.column. now apply Permutation_map. }
  assert (Hpair : z_pair a = z_pair b).
  { unfold z_pair. f_equal. f_equal. apply mean_Permutation.
    unfold np.mod_, np.sum_axis1. now do 2 apply Permutation_map. }
  unfold aggregate. now rewrite Hsingle, Hpair.
Qed.

Lemma aggregate_ignores_shot_order_witness :
  let a := pair_array [(0, 1); (1, 1); (0, 0)]%Z in
  let b := pair_array [(1, 1); (0, 0); (0, 1)]%Z in
  np.ncols a = np.ncols b /\ np.rows a ≡ₚ np.rows b /\ aggregate a = aggregate b.
Proof.
  intros a b.
  assert (Hc : np.ncols a = np.ncols b) by reflexivity.
  assert (Hp : np.rows a ≡ₚ np.rows b).
  { cbn. etransitivity; [apply perm_swap|]. apply perm_skip, perm_swap. }
  split; [exact Hc|]. split; [exact Hp|].
  exact (aggregate_ignores_shot_order a b Hc Hp).
Defined.

(** X4.  With two columns the unpacking succeeds; without a single shot
    all three statistics are nan (no error is raised), and with at least
    one shot all three are finite. *)
Theorem zero_shots_give_nan (a : np.ndarray) :
  np.ncols a = 2%nat ->
  (np.rows a = [] -> aggregate a = inr (np.nan, np.nan, np.nan))
  /\ (np.rows a <> [] ->
      exists z0 z1 zz : Q, aggregate a = inr (np.fin z0, np.fin z1, np.fin zz)).
Proof.
  intros Hc. rewrite (aggregate_two_columns a Hc).
  unfold stats, z_single, z_pair, np.mean_axis0, np.column, np.mod_, np.sum_axis1.
  rewrite Hc. split.
  - intros ->. reflexivity.
  - intros Hne. destruct (np.rows a) as [|r rs]; [congruence|].
    cbn. do 3 eexists. reflexivity.
Qed.

Lemma zero_shots_give_nan_witness :
  let a := np.mkArray 2 [] in
  np.ncols a = 2%nat /\ aggregate a = inr (np.nan, np.nan, np.nan).
Proof.
  intros a.
  assert (Hc : np.ncols a = 2%nat) by reflexivity.
  split; [exact Hc|].
  exact (proj1 (zero_shots_give_nan a Hc) eq_refl).
Defined.
End Statistics.

(** ** The extreme values of zz on bit pairs *)

Section Correlation.
Import Noise.
Local Open Scope Q_scope.

(** The sum over the rows behind [mean_over]. *)
Local Abbreviation total f pairs := (foldr (fun p acc => (f p + acc)%Z) 0%Z pairs).

Lemma shots_positive (pairs : list (Z * Z)) :
  pairs <> [] -> (0 < Z.of_nat (length pairs))%Z.
Proof. destruct pairs; [congruence | simpl; lia]. Qed.

Lemma Qdiv_self (n : Z) : (0 < n)%Z -> inject_Z n / inject_Z n == 1.
Proof.
  intros Hn. field. change 0 with (inject_Z 0). rewrite inject_Z_injective. lia.
Qed.

Lemma Qdiv_eq_0 (a n : Z) : (0 < n)%Z -> inject_Z a / inject_Z n == 0 <-> a = 0%Z.
Proof.
  intros Hn.
  assert (Hq : ~ inject_Z n == 0)
    by (change 0 with (inject_Z 0); rewrite inject_Z_injective; lia).
  split.
  - intros H. apply inject_Z_injective. change (inject_Z 0) with 0.
    rewrite <- (Qmult_div_r (inject_Z a) (inject_Z n) Hq), H. ring.
  - intros ->. change (inject_Z 0) with 0. field. exact Hq.
Qed.

Lemma Qdiv_eq_1 (a n : Z) : (0 < n)%Z -> inject_Z a / inject_Z n == 1 <-> a = n.
Proof.
  intros Hn.
  assert (Hq : ~ inject_Z n == 0)
    by (change 0 with (inject_Z 0); rewrite inject_Z_injective; lia).
  split.
  - intros H. apply inject_Z_injective.
    rewrite <- (Qmult_div_r (inject_Z a) (inject_Z n) Hq), H. ring.
  - intros ->. now apply Qdiv_self.
Qed.

Lemma total_bits_zero (f : Z * Z -> Z) (pairs : list (Z * Z)) :
  Forall (fun p => bit (f p)) pairs ->
  total f pairs = 0%Z <-> Forall (fun p => f p = 0%Z) pairs.
Proof.
  induction 1 as [|p pairs Hp Hrest IH]; simpl foldr.
  - split; [constructor | reflexivity].
  - pose proof (foldr_bounds f pairs Hrest) as [Hlo _]. split.
    + intros Hsum. assert (f p = 0%Z) by (destruct Hp; lia).
      constructor; [assumption|]. apply IH. lia.
    + intros Hall. inversion Hall as [|? ? H0 Hrest0]; subst.
      apply IH in Hrest0. lia.
Qed.

Lemma total_bits_all (f : Z * Z -> Z) (pairs : list (Z * Z)) :
  Forall (fun p => bit (f p)) pairs ->
  total f pairs = Z.of_nat (length pairs) <-> Forall (fun p => f p = 1%Z) pairs.
Proof.
  induction 1 as [|p pairs Hp Hrest IH]; simpl foldr; simpl length.
  - split; [constructor | reflexivity].
  - pose proof (foldr_bounds f pairs Hrest) as [_ Hhi]. split.
    + intros Hsum. assert (f p = 1%Z) by (destruct Hp; lia).
      constructor; [assumption|]. apply IH. lia.
    + intros Hall. inversion Hall as [|? ? H1 Hrest1]; subst.
      apply IH in Hrest1. lia.
Qed.

Lemma parity_zero_iff (p : Z * Z) : bit_pair p -> parity p = 0%Z <-> p.1 = p.2.
Proof.
  destruct p as [b0 b1]. unfold bit_pair, bit. cbn [fst snd].
  intros [[-> | ->] [-> | ->]]; vm_compute; split; congruence.
Qed.

Lemma parity_one_iff (p : Z * Z) : bit_pair p -> parity p = 1%Z <-> p.1 <> p.2.
Proof.
  destruct p as [b0 b1]. unfold bit_pair, bit. cbn [fst snd].
  intros [[-> | ->] [-> | ->]]; vm_compute; split; congruence.
Qed.

Lemma Forall_iff_on {A} (P Q R : A -> Prop) (l : list A) :
  Forall R l -> (forall x, R x -> P x <-> Q x) -> Forall P l <-> Forall Q l.
Proof.
  intros HR Hiff. rewrite !Forall_forall. rewrite Forall_forall in HR.
  split; intros H x Hx; apply (Hiff x (HR x Hx)), H, Hx.
Qed.

(** X7.  On a non-empty array of bit pairs zz is 1 exactly when the two
    bits agree in every shot, and -1 exactly when they differ in every
    shot. *)
Theorem zz_extremes (pairs : list (Z * Z)) (z0 z1 zz : Q) :
  pairs <> [] -> Forall bit_pair pairs ->
  aggregate (pair_array pairs) = inr (np.fin z0, np.fin z1, np.fin zz) ->
  (zz == 1 <-> Forall (fun p => p.1 = p.2) pairs)
  /\ (zz == -1 <-> Forall (fun p => p.1 <> p.2) pairs).
Proof.
  intros Hne Hbits Hagg. rewrite aggregate_pair_array in Hagg by assumption.
  injection Hagg as _ _ <-.
  pose proof (shots_positive pairs Hne) as Hn.
  assert (Hpar : Forall (fun p => bit (parity p)) pairs)
    by (apply Forall_forall; intros; apply parity_bit).
  split.
  - rewrite <- (Forall_iff_on _ _ _ pairs Hbits parity_zero_iff).
    rewrite <- (total_bits_zero parity pairs Hpar).
    rewrite <- (Qdiv_eq_0 _ _ Hn). fold (mean_over parity pairs).
    split; intros H; lra.
  - rewrite <- (Forall_iff_on _ _ _ pairs Hbits parity_one_iff).
    rewrite <- (total_bits_all parity pairs Hpar).
    rewrite <- (Qdiv_eq_1 _ _ Hn). fold (mean_over parity pairs).
    split; intros H; lra.
Qed.

Lemma zz_extremes_witness :
  let pairs := [(0, 0); (1, 1); (1, 1)]%Z in
  pairs <> [] /\ Forall bit_pair pairs
  /\ exists z0 z1 zz,
       aggregate (pair_array pairs) = inr (np.fin z0, np.fin z1, np.fin zz)
       /\ (zz == 1 <-> Forall (fun p => p.1 = p.2) pairs).
Proof.
  intros pairs.
  assert (Hne : pairs <> []) by discriminate.
  assert (Hbits : Forall bit_pair pairs)
    by (repeat constructor; simpl; (now left) || (now right)).
  split; [exact Hne|]. split; [exact Hbits|].
  do 3 eexists. split; [reflexivity|].
  exact (proj1 (zz_extremes pairs _ _ _ Hne Hbits eq_refl)).
Defined.
End Correlation.

(** ** The grid and the plots *)

Section Grid.
Import Quil Noise.

Lemma linspace_lookup (start stop : R) (num i : nat) :
  i < num ->
  np.linspace start stop num !! i
  = Some (INR i * ((stop - start) / INR (num - 1)) + start)%R.
Proof.
  intros Hi. unfold np.linspace. rewrite list_lookup_fmap, lookup_seq_lt by assumption.
  reflexivity.
Qed.

Lemma length_linspace (start stop : R) (num : nat) :
  length (np.linspace start stop num) = num.
Proof. unfold np.linspace. now rewrite length_map, length_seq. Qed.

Lemma linspace_increasing (start stop : R) (num i j : nat) (a b : R) :
  (start < stop)%R ->
  np.linspace start stop num !! i = Some a ->
  np.linspace start stop num !! j = Some b ->
  i < j -> (a < b)%R.
Proof.
  intros Hlt Hi Hj Hij.
  pose proof (lookup_lt_Some _ _ _ Hj) as Hjn. rewrite length_linspace in Hjn.
  rewrite linspace_lookup in Hi, Hj by lia. injection Hi as <-. injection Hj as <-.
  assert (Hden : (0 < INR (num - 1))%R) by (apply lt_0_INR; lia).
  assert (Hstep : (0 < (stop - start) / INR (num - 1))%R)
    by (apply Rdiv_lt_0_compat; [Lra.lra | exact Hden]).
  apply Rplus_lt_compat_r, Rmult_lt_compat_r; [exact Hstep|]. now apply lt_INR.
Qed.

Lemma thetas_increasing (i j : nat) (a b : R) :
  thetas !! i = Some a -> thetas !! j = Some b -> i < j -> (a < b)%R.
Proof.
  apply linspace_increasing. pose proof PI_RGT_0. Lra.lra.
Qed.

Lemma t1s_increasing (i j : nat) (a b : R) :
  t1s !! i = Some a -> t1s !! j = Some b -> i < j -> (a < b)%R.
Proof.
  unfold t1s, np.logspace. rewrite !list_lookup_fmap.
  destruct (np.linspace (-6) (-5) 3 !! i) as [x|] eqn:Hx; [|discriminate].
  destruct (np.linspace (-6) (-5) 3 !! j) as [y|] eqn:Hy; [|discriminate].
  intros [= <-] [= <-] Hij. apply Rpower_lt; [Lra.lra|].
  eapply (linspace_increasing (-6) (-5) 3 i j); [Lra.lra | eassumption..].
Qed.

Lemma NoDup_increasing (l : list R) :
  (forall i j a b, l !! i = Some a -> l !! j = Some b -> i < j -> (a < b)%R) ->
  NoDup l.
Proof.
  intros Hinc. apply NoDup_alt. intros i j x Hi Hj.
  destruct (Nat.lt_trichotomy i j) as [Hlt | [Heq | Hgt]]; [|exact Heq|].
  - pose proof (Hinc i j x x Hi Hj Hlt). Lra.lra.
  - pose proof (Hinc j i x x Hj Hi Hgt). Lra.lra.
Qed.

Lemma NoDup_row_major {A B} (xs : list A) (ys : list B) :
  NoDup xs -> NoDup ys -> NoDup (flat_map (fun x => map (fun y => (x, y)) ys) xs).
Proof.
  intros Hxs Hys. induction Hxs as [|x xs Hx _ IH]; simpl; [constructor|].
  apply NoDup_app. split; [|split; [|exact IH]].
  - apply (NoDup_fmap_2 (fun y => (x, y))), Hys.
  - intros [x' y'] Hin Hin'.
    apply list_elem_of_fmap in Hin as (y & [= -> ->] & _).
    apply list_elem_of_In, in_flat_map in Hin' as (x'' & Hx'' & Hy'').
    apply in_map_iff in Hy'' as (y'' & [= -> ->] & _).
    apply Hx, list_elem_of_In, Hx''.
Qed.

(** X8.  Both parameter lists are strictly increasing, so the sweep never
    visits a grid point twice: its sixty grid points are pairwise
    different. *)
Theorem grid_never_repeats :
  (forall i j a b, thetas !! i = Some a -> thetas !! j = Some b -> i < j -> (a < b)%R)
  /\ (forall i j a b, t1s !! i = Some a -> t1s !! j = Some b -> i < j -> (a < b)%R)
  /\ NoDup grid.
Proof.
  split; [exact thetas_increasing|]. split; [exact t1s_increasing|].
  apply NoDup_row_major; apply NoDup_increasing;
    [exact thetas_increasing | exact t1s_increasing].
Qed.
End Grid.

Section Plots.
Import Quil Noise.
Variable lib : library.
Variable run : simulator.

Lemma record_at_fields (k : nat) (point : R * R) :
  record_at lib run k point !! "theta" = Some (Param point.1)
  /\ record_at lib run k point !! "t1" = Some (Param point.2).
Proof.
  unfold record_at. destruct (stats _) as [[z0 z1] zz].
  destruct (lookup_make_record z0 z1 zz point.1 point.2) as (_ & _ & _ & Ht & Ht1).
  now split.
Qed.

Lemma has_t1_record_at (t1 : R) (k : nat) (point : R * R) :
  has_t1 t1 (record_at lib run k point) = if Req_dec_T point.2 t1 then true else false.
Proof.
  unfold has_t1. now rewrite (proj2 (record_at_fields k point)).
Qed.

Lemma filter_imap_none (t1 : R) (g : nat -> R -> gmap string value) (ys : list R) :
  (forall n y, has_t1 t1 (g n y) = if Req_dec_T y t1 then true else false) ->
  t1 ∉ ys -> List.filter (has_t1 t1) (imap g ys) = [].
Proof.
  revert g. induction ys as [|y ys IH]; intros g Hg Hnot; [reflexivity|].
  apply not_elem_of_cons in Hnot as [Hne Hnot]. simpl. rewrite Hg.
  destruct (Req_dec_T y t1) as [->|_]; [congruence|].
  apply IH; [|exact Hnot]. intros n y'. apply Hg.
Qed.

Lemma filter_imap_one (t1 : R) (g : nat -> R -> gmap string value) (ys : list R) (j : nat) :
  (forall n y, has_t1 t1 (g n y) = if Req_dec_T y t1 then true else false) ->
  NoDup ys -> ys !! j = Some t1 -> List.filter (has_t1 t1) (imap g ys) = [g j t1].
Proof.
  revert g j. induction ys as [|y ys IH]; intros g j Hg Hnd Hj; [destruct j; discriminate|].
  apply NoDup_cons in Hnd as [Hy Hnd]. simpl. rewrite Hg. destruct j as [|j].
  - injection Hj as ->. destruct (Req_dec_T t1 t1) as [_|Hne]; [|congruence].
    f_equal. apply filter_imap_none; [|exact Hy]. intros n y'. apply Hg.
  - simpl in Hj. destruct (Req_dec_T y t1) as [->|_].
    + exfalso. apply Hy. eapply list_elem_of_lookup_2, Hj.
    + apply (IH (g ∘ S) j); [|exact Hnd | exact Hj]. intros n y'. apply Hg.
Qed.

Lemma imap_map {A B C} (f : nat -> B -> C) (g : A -> B) (l : list A) :
  imap f (map g l) = imap (fun n x => f n (g x)) l.
Proof.
  revert f. induction l as [|x l IH]; intros f; [reflexivity|].
  simpl. f_equal. apply IH.
Qed.

(** Filtering the rows of a row-major table by the value of the inner
    parameter keeps one row per outer value. *)
Lemma filter_row_major (t1 : R) (f : nat -> R * R -> gmap string value)
    (xs ys : list R) (j off : nat) :
  (forall k p, has_t1 t1 (f k p) = if Req_dec_T p.2 t1 then true else false) ->
  NoDup ys -> ys !! j = Some t1 ->
  List.filter (has_t1 t1)
    (imap (fun n => f (off + n)) (flat_map (fun x => map (fun y => (x, y)) ys) xs))
  = imap (fun i x => f (off + i * length ys + j) (x, t1)) xs.
Proof.
  intros Hf Hnd Hj. revert off. induction xs as [|x xs IH]; intros off; [reflexivity|].
  simpl flat_map. rewrite imap_app, List.filter_app, length_map.
  rewrite (imap_map (fun n => f (off + n)) (fun y => (x, y)) ys).
  rewrite (filter_imap_one t1 _ ys j); [|intros n y; apply Hf | exact Hnd | exact Hj].
  rewrite (imap_ext _ (fun n => f (off + length ys + n)) (flat_map _ xs));
    [|intros n p _; f_equal; lia].
  rewrite IH. simpl. f_equal.
  - unfold compose. f_equal. lia.
  - apply imap_ext. intros i x' _. unfold compose. f_equal. lia.
Qed.

Lemma column_imap {A} (key : string) (g : nat -> A -> gmap string value) (l : list A) :
  column key (imap g l) = imap (fun i x => g i x !! key) l.
Proof.
  unfold column. revert g. induction l as [|x l IH]; intros g; [reflexivity|].
  simpl. f_equal. apply IH.
Qed.

Lemma imap_no_index {A B} (h : A -> B) (l : list A) : imap (fun _ x => h x) l = map h l.
Proof. induction l as [|x l IH]; [reflexivity|]. simpl. f_equal. exact IH. Qed.

(** X9.  After a sweep that completes, the plotting loop draws on each
    axis one line per t1 value.  The line of the [j]-th t1 has twenty
    points: its abscissas are the twenty thetas in increasing order and
    its [i]-th ordinate is the plotted statistic of the record of the grid
    point (theta_i, t1_j), the record number 3*i + j. *)
Theorem plot_lines_follow_grid (key : string) :
  (forall k point, grid !! k = Some point ->
     np.ncols (run k (noisy_program lib point.1 point.2)) = 2) ->
  exists s,
    sweep lib run = inr s
    /\ length (plot_lines (records s) key) = 3
    /\ forall j t1, t1s !! j = Some t1 ->
         plot_lines (records s) key !! j
         = Some (map (fun theta => Some (Param theta)) thetas,
                 imap (fun i theta => record_at lib run (i * 3 + j) (theta, t1) !! key)
                   thetas).
Proof.
  intros Hrun. eexists. split; [now apply sweep_completes_on_grid|].
  cbn [records]. split; [unfold plot_lines; now rewrite length_map, length_t1s|].
  intros j t1 Hj. unfold plot_lines. rewrite list_lookup_fmap, Hj. cbn [fmap option_fmap option_map].
  assert (Hq : query_t1 (imap (fun k point => record_at lib run k point) grid) t1
               = imap (fun i theta => record_at lib run (i * 3 + j) (theta, t1)) thetas).
  { pose proof (filter_row_major t1 (record_at lib run) thetas t1s j 0
                  (has_t1_record_at t1) (NoDup_increasing _ t1s_increasing) Hj) as Hf.
    rewrite length_t1s in Hf. exact Hf. }
  rewrite Hq, !column_imap.
  assert (Hx : imap (fun i theta => record_at lib run (i * 3 + j) (theta, t1) !! "theta")
                 thetas
               = map (fun theta => Some (Param theta)) thetas).
  { rewrite <- imap_no_index. apply imap_ext. intros i theta _.
    apply (record_at_fields _ (theta, t1)). }
  now rewrite Hx.
Qed.
End Plots.

Lemma plot_lines_follow_grid_witness :
  (forall k point, Noise.grid !! k = Some point ->
     np.ncols (Noise.counting_simulator k
                 (Noise.noisy_program Noise.plain_library point.1 point.2)) = 2)
  /\ exists s,
       Noise.sweep Noise.plain_library Noise.counting_simulator = inr s
       /\ length (Noise.plot_lines (Noise.records s) "zz") = 3.
Proof.
  assert (Hrun : forall k point, Noise.grid !! k = Some point ->
            np.ncols (Noise.counting_simulator k
                        (Noise.noisy_program Noise.plain_library point.1 point.2)) = 2)
    by (intros k point _; reflexivity).
  split; [exact Hrun|].
  destruct (plot_lines_follow_grid Noise.plain_library Noise.counting_simulator "zz" Hrun)
    as (s & Hs & Hlen & _).
  exists s. split; [exact Hs | exact Hlen].
Defined.

(** ** More on the placeholder notebook *)

Section PlaceholderExtras.
Import Quil Placeholder.
Variable format_param : R -> string.

Lemma traverse_total {A B} (f : A -> exn + B) (g : A -> B) (xs : list A) :
  (forall x, x ∈ xs -> f x = inr (g x)) -> traverse f xs = inr (map g xs).
Proof.
  induction xs as [|x xs IH]; intros Hf; [reflexivity|].
  simpl. rewrite (Hf x) by left. rewrite IH; [reflexivity|].
  intros y Hy. apply Hf. now right.
Qed.

Lemma qubit_out_physical (q : qubit) :
  ~ is_placeholder q -> qubit_out q = inr (qubit_str q).
Proof. destruct q as [i|id]; [reflexivity|]. intros Hq. exfalso. apply Hq. now exists id. Qed.

(** On a program without placeholders [out()] is the printed text. *)
Lemma out_addressed (prog : Program) :
  ~ unaddressed prog -> out format_param prog = inr (str format_param prog).
Proof.
  intros Hno. unfold out, str.
  rewrite (traverse_total _ (instr_str format_param)); [reflexivity|].
  intros i Hi.
  assert (Hqs : forall q, q ∈ instr_qubits i -> qubit_out q = inr (qubit_str q)).
  { intros q Hq. apply qubit_out_physical. intros [id ->]. apply Hno. exists id.
    unfold program_qubits. apply elem_of_concat. exists (instr_qubits i).
    split; [exact Hq|]. apply list_elem_of_fmap. now exists i. }
  destruct i as [name ps qs | q r o]; simpl in Hqs |- *.
  - now rewrite (traverse_total _ qubit_str qs Hqs).
  - rewrite (Hqs q); [reflexivity|]. apply list_elem_of_singleton. reflexivity.
Qed.

Lemma out_inl (prog : Program) (e : exn) :
  out format_param prog = inl e -> exists msg, e = RuntimeError msg.
Proof.
  unfold out. destruct (traverse _ _) as [e'|ls] eqn:Ht; [|discriminate].
  intros [= ->]. apply traverse_inl in Ht as (i & _ & Hi).
  apply instr_out_inl in Hi. destruct e; try discriminate. eauto.
Qed.

(** X10.  The [try] cell never lets an exception out, whatever the program:
    it prints exactly one line, the Quil text when [out()] returns and the
    message of the RuntimeError when it raises, and changes nothing else. *)
Theorem cell_try_never_raises (s : nb) (p : nat) (prog : Program) :
  heap s !! p = Some prog ->
  exists line,
    cell_try format_param p s
    = (inr (), {| next_id := next_id s; heap := heap s; stdout := stdout s ++ [line] |})
    /\ (out format_param prog = inr line \/ out format_param prog = inl (RuntimeError line))
    /\ (~ unaddressed prog -> line = str format_param prog).
Proof.
  intros Hp. unfold cell_try, cell_try_over, try_except, mbind, M_bind, deref, lift.
  rewrite Hp. destruct (out format_param prog) as [e|text] eqn:Hout.
  - destruct (out_inl prog e Hout) as [msg ->]. exists msg. cbn.
    split; [reflexivity|]. split; [now right|].
    intros Hno. rewrite (out_addressed prog Hno) in Hout. discriminate.
  - exists text. split; [reflexivity|]. split; [now left|].
    intros Hno. rewrite (out_addressed prog Hno) in Hout. congruence.
Qed.

Lemma address_qubit_physical (m : gmap qubit nat) (q q' : qubit) :
  address_qubit m q = inr q' -> ~ is_placeholder q'.
Proof.
  destruct q as [i|id]; simpl.
  - intros [= <-] [id' Hid]. discriminate.
  - destruct (m !! QubitPlaceholder id); [|discriminate].
    intros [= <-] [id' Hid]. discriminate.
Qed.

Lemma address_keeps_physical (prog : Program) (m : option (gmap qubit nat)) :
  ~ unaddressed prog -> address prog m = inr (instructions prog).
Proof.
  intros Hno. unfold address.
  rewrite (traverse_total _ (fun i => i)); [now rewrite map_id|].
  intros i Hi.
  assert (Hqs : forall mapping q, q ∈ instr_qubits i -> address_qubit mapping q = inr q).
  { intros mapping q Hq. destruct q as [k|id]; [reflexivity|].
    exfalso. apply Hno. exists id. unfold program_qubits. apply elem_of_concat.
    exists (instr_qubits i). split; [exact Hq|]. apply list_elem_of_fmap. now exists i. }
  destruct i as [name ps qs | q r o]; simpl in Hqs |- *.
  - rewrite (traverse_total _ (fun q => q) qs); [now rewrite map_id|]. intros q. apply Hqs.
  - rewrite Hqs; [reflexivity|]. apply list_elem_of_singleton. reflexivity.
Qed.

(** X11.  A program that [address_qubits] returned has no placeholder
    left: [out()] gives its text without raising, and addressing it again,
    with any mapping or none, gives the same instructions. *)
Theorem addressed_program_is_final (prog : Program) (m : option (gmap qubit nat))
    (body : list instr) :
  address prog m = inr body ->
  ~ unaddressed (mkProgram body)
  /\ out format_param (mkProgram body) = inr (str format_param (mkProgram body))
  /\ forall m', address (mkProgram body) m' = inr body.
Proof.
  intros Ha.
  assert (Hno : ~ unaddressed (mkProgram body)).
  { intros [id Hid]. pose proof (address_qubits_related prog m body Ha) as Hrel.
    apply list_elem_of_lookup in Hid as [n Hn].
    destruct (Forall2_lookup_r _ _ _ _ _ Hrel Hn) as (q & _ & Hq).
    apply address_qubit_physical in Hq. apply Hq. now exists id. }
  split; [exact Hno|]. split; [now apply out_addressed|].
  intros m'. now apply (address_keeps_physical (mkProgram body)).
Qed.

(** X12.  For a program whose qubits are all placeholders, an explicit
    mapping that has every qubit of the program as a key addresses it, each
    qubit becoming the index the mapping gives; a qubit of the program that
    is not a key makes the call raise a KeyError. *)
Theorem explicit_mapping_must_cover (prog : Program) (m : gmap qubit nat) :
  Forall is_placeholder (program_qubits prog) ->
  ((forall q, q ∈ program_qubits prog -> is_Some (m !! q)) ->
   exists body,
     address prog (Some m) = inr body
     /\ Forall2 (fun q q' => exists i, m !! q = Some i /\ q' = Qubit i)
          (program_qubits prog) (program_qubits (mkProgram body)))
  /\ (forall q, q ∈ program_qubits prog -> m !! q = None ->
      exists msg, address prog (Some m) = inl (KeyError msg)).
Proof.
  intros Hph. rewrite Forall_forall in Hph. split.
  - intros Hcov. destruct (address_succeeds prog (Some m)) as [body Hbody].
    { intros q Hq _. simpl. now apply Hcov. }
    exists body. split; [exact Hbody|].
    pose proof (address_qubits_related prog (Some m) body Hbody) as Hrel. simpl in Hrel.
    apply Forall2_same_length_lookup in Hrel as [Hl Hrel].
    apply Forall2_same_length_lookup. split; [exact Hl|].
    intros n q q' Hq Hq'. specialize (Hrel n q q' Hq Hq').
    assert (Hin : q ∈ program_qubits prog) by (apply list_elem_of_lookup; eauto).
    destruct (Hph q Hin) as [id ->]. destruct (Hcov _ Hin) as [i Hi].
    exists i. split; [exact Hi|]. simpl in Hrel. rewrite Hi in Hrel. congruence.
  - intros q Hq Hnone. destruct (Hph q Hq) as [id ->].
    now apply (address_unmapped prog m id).
Qed.

Lemma dict_of_enumerate_lookup {V} (h : nat -> V) (qs : list qubit) (q : qubit) (i : nat) :
  NoDup qs -> qs !! i = Some q ->
  dict_of (imap (fun i q => (q, h i)) qs) !! q = Some (h i).
Proof.
  intros Hnd Hi. apply dict_of_lookup.
  - rewrite fmap_imap.
    rewrite (imap_ext _ (fun _ q => q) qs) by reflexivity.
    change (fun (_ : nat) (q : qubit) => q) with (@const (qubit -> qubit) nat (fun q => q)).
    now rewrite imap_const, list_fmap_id.
  - apply elem_of_lookup_imap. now exists i, q.
Qed.

(** Addressing [Program(H(q) for q in qs)] with the mapping
    [{q: i*2 for i, q in enumerate(qs)}]. *)
Lemma address_enumerated (qs : list qubit) :
  NoDup qs -> Forall is_placeholder qs ->
  address (mkProgram (map H qs)) (Some (dict_of (imap (fun i q => (q, i * 2)) qs)))
  = inr (imap (fun i _ => H (Qubit (i * 2))) qs).
Proof.
  intros Hnd Hph. unfold address. cbn [instructions]. apply traverse_inr.
  apply Forall2_same_length_lookup. split; [now rewrite length_map, length_imap|].
  intros i x y Hx Hy. rewrite list_lookup_fmap in Hx. rewrite list_lookup_imap in Hy.
  destruct (qs !! i) as [q|] eqn:Hq; [|discriminate].
  injection Hx as <-. injection Hy as <-.
  rewrite Forall_forall in Hph.
  destruct (Hph q) as [id ->]; [apply list_elem_of_lookup; eauto|].
  unfold H at 1. simpl.
  now rewrite (dict_of_enumerate_lookup (fun i => i * 2) qs _ i Hnd Hq).
Qed.

Lemma cell_register_run (s : nb) :
  let reg := map QubitPlaceholder (seq (next_id s) 8) in
  let addressed := imap (fun i (_ : qubit) => H (Qubit (i * 2))) reg in
  cell_register format_param s
  = (inr (),
     {| next_id := next_id s + 8;
        heap := (heap s ++ [mkProgram (map H reg)]) ++ [mkProgram addressed];
        stdout := stdout s ++ [str format_param (mkProgram addressed)] |}).
Proof.
  intros reg addressed. unfold cell_register.
  unfold mbind at 1. unfold M_bind at 1. rewrite register_run. fold reg.
  unfold mbind at 1. unfold M_bind at 1. unfold new_program at 1. cbn [next_id heap stdout].
  assert (Hnd : NoDup reg).
  { assert (Hinj : Inj eq eq QubitPlaceholder) by (intros a b [= ->]; reflexivity).
    apply (@NoDup_fmap_2 _ _ QubitPlaceholder Hinj), NoDup_seq. }
  assert (Hph : Forall is_placeholder reg).
  { apply Forall_forall. intros q Hq. apply list_elem_of_fmap in Hq as (id & -> & _).
    now exists id. }
  rewrite (address_and_print format_param (length (heap s)) _ _ (mkProgram (map H reg))
             addressed); [reflexivity | |now apply address_enumerated].
  cbn [heap]. apply list_lookup_middle. reflexivity.
Qed.

(** X13.  Whatever was run before, the register cell makes eight new
    placeholders, builds one H per placeholder and prints the program
    addressed at the even indices: H 0, H 2, ..., H 14.  The indices come
    from the position in the register, not from the identity of the
    placeholders. *)
Theorem cell_register_output (s : nb) :
  let reg := map QubitPlaceholder (seq (next_id s) 8) in
  let addressed := map (fun i => H (Qubit (i * 2))) (seq 0 8) in
  cell_register format_param s
  = (inr (),
     {| next_id := next_id s + 8;
        heap := heap s ++ [mkProgram (map H reg); mkProgram addressed];
        stdout := stdout s
          ++ [lines ["H 0"; "H 2"; "H 4"; "H 6"; "H 8"; "H 10"; "H 12"; "H 14"]] |}).
Proof.
  intros reg addressed. rewrite cell_register_run. fold reg.
  rewrite <- app_assoc. reflexivity.
Qed.

Lemma cell_integers_run (s : nb) :
  cell_integers format_param s
  = (inr (),
     {| next_id := next_id s;
        heap := heap s ++ [mkProgram [H (Qubit 0); CNOT (Qubit 0) (Qubit 1)]];
        stdout := stdout s ++ [lines ["H 0"; "CNOT 0 1"]] |}).
Proof.
  unfold cell_integers. unfold mbind at 1. unfold M_bind at 1. unfold new_program at 1.
  rewrite (print_program_run format_param _ _
             (mkProgram [H (Qubit 0); CNOT (Qubit 0) (Qubit 1)])); [reflexivity|].
  cbn [heap]. apply list_lookup_middle. reflexivity.
Qed.

Lemma cell_placeholders_run (s : nb) :
  cell_placeholders format_param s
  = (inr (QubitPlaceholder (next_id s), QubitPlaceholder (S (next_id s)), length (heap s)),
     {| next_id := S (S (next_id s));
        heap := heap s ++ [bell (next_id s) (S (next_id s))];
        stdout := stdout s ++ [str format_param (bell (next_id s) (S (next_id s)))] |}).
Proof.
  unfold cell_placeholders.
  do 3 (unfold mbind at 1; unfold M_bind at 1). unfold new_placeholder, new_program.
  cbn [next_id heap stdout].
  unfold mbind at 1. unfold M_bind at 1.
  rewrite (print_program_run format_param _ _ (bell (next_id s) (S (next_id s))));
    [reflexivity|].
  cbn [heap]. apply list_lookup_middle. reflexivity.
Qed.

Lemma cell_try_bell (s : nb) (p a b : nat) :
  heap s !! p = Some (bell a b) ->
  cell_try format_param p s
  = (inr (),
     {| next_id := next_id s; heap := heap s;
        stdout := stdout s
          ++ ["Qubit q" +:+ pretty a +:+ " has not been assigned an index"] |}).
Proof.
  intros Hp. unfold cell_try, cell_try_over, try_except, mbind, M_bind, deref, lift.
  rewrite Hp. reflexivity.
Qed.

(** X14.  Run as a whole from any kernel state, the notebook never stops
    on an exception.  It makes ten placeholders and six program objects and
    prints six blocks; the addressed programs it prints (H 0; CNOT 0 1,
    then H 14; CNOT 14 19, then H 0 ... H 14) are the same whatever ran
    before, only the printed names of the placeholders depend on it. *)
Theorem notebook_runs_from_any_state (s : nb) :
  let n := next_id s in
  notebook format_param s
  = (inr (),
     {| next_id := n + 10;
        heap := heap s
          ++ [ mkProgram [H (Qubit 0); CNOT (Qubit 0) (Qubit 1)];
               bell n (S n);
               mkProgram [H (Qubit 0); CNOT (Qubit 0) (Qubit 1)];
               mkProgram [H (Qubit 14); CNOT (Qubit 14) (Qubit 19)];
               mkProgram (map H (map QubitPlaceholder (seq (S (S n)) 8)));
               mkProgram (map (fun i => H (Qubit (i * 2))) (seq 0 8)) ];
        stdout := stdout s
          ++ [ lines ["H 0"; "CNOT 0 1"];
               str format_param (bell n (S n));
               "Qubit q" +:+ pretty n +:+ " has not been assigned an index";
               lines ["H 0"; "CNOT 0 1"];
               lines ["H 14"; "CNOT 14 19"];
               lines ["H 0"; "H 2"; "H 4"; "H 6"; "H 8"; "H 10"; "H 12"; "H 14"] ] |}).
Proof.
  intros n. unfold notebook.
  unfold mbind at 1. unfold M_bind at 1. rewrite cell_integers_run.
  unfold mbind at 1. unfold M_bind at 1. rewrite cell_placeholders_run.
  cbn [next_id heap stdout]. fold n.
  set (h1 := heap s ++ [mkProgram [H (Qubit 0); CNOT (Qubit 0) (Qubit 1)]]).
  assert (Hp : forall more, ((h1 ++ [bell n (S n)]) ++ more) !! length h1
                            = Some (bell n (S n))).
  { intros more. rewrite <- app_assoc. apply list_lookup_middle. reflexivity. }
  assert (Hne : n <> S n) by lia.
  unfold mbind at 1. unfold M_bind at 1.
  rewrite (cell_try_bell _ (length h1) n (S n));
    [|cbn [heap]; rewrite <- (app_nil_r (h1 ++ _)); apply Hp].
  cbn [next_id heap stdout].
  unfold mbind at 1. unfold M_bind at 1. unfold cell_default.
  rewrite (address_and_print format_param (length h1) None _ (bell n (S n))
             [H (Qubit 0); CNOT (Qubit 0) (Qubit 1)]);
    [|cbn [heap]; rewrite <- (app_nil_r (h1 ++ _)); apply Hp
     |unfold address; unfold bell at 2; cbn [instructions];
      apply address_two_qubit_program; apply default_mapping_lookup;
      now rewrite placeholders_bell].
  cbn [next_id heap stdout].
  unfold mbind at 1. unfold M_bind at 1. unfold cell_explicit.
  destruct (explicit_mapping_lookup n (S n) Hne) as [Ha Hb].
  rewrite (address_and_print format_param (length h1) _ _ (bell n (S n))
             [H (Qubit 14); CNOT (Qubit 14) (Qubit 19)]);
    [|cbn [heap]; apply Hp
     |unfold address, bell; now apply address_two_qubit_program].
  rewrite cell_register_run. cbn [next_id heap stdout]. subst h1.
  f_equal. f_equal.
  - lia.
  - rewrite <- !app_assoc. reflexivity.
  - rewrite <- !app_assoc. reflexivity.
Qed.
End PlaceholderExtras.

Section PlaceholderExtraWitnesses.
Import Quil Placeholder.

Lemma cell_try_never_raises_witness :
  let s := mkNb 0 [mkProgram [H (Qubit 0); CNOT (Qubit 0) (Qubit 1)]] [] in
  heap s !! 0 = Some (mkProgram [H (Qubit 0); CNOT (Qubit 0) (Qubit 1)])
  /\ exists line,
       cell_try (fun _ => "") 0 s
       = (inr (), {| next_id := 0; heap := heap s; stdout := [line] |}).
Proof.
  intros s.
  assert (Hp : heap s !! 0 = Some (mkProgram [H (Qubit 0); CNOT (Qubit 0) (Qubit 1)]))
    by reflexivity.
  split; [exact Hp|].
  destruct (cell_try_never_raises (fun _ => "") s 0 _ Hp) as (line & Hrun & _).
  exists line. exact Hrun.
Defined.

Lemma addressed_program_is_final_witness :
  address (bell 0 1) None = inr [H (Qubit 0); CNOT (Qubit 0) (Qubit 1)]
  /\ forall m', address (mkProgram [H (Qubit 0); CNOT (Qubit 0) (Qubit 1)]) m'
                = inr [H (Qubit 0); CNOT (Qubit 0) (Qubit 1)].
Proof.
  assert (Ha : address (bell 0 1) None = inr [H (Qubit 0); CNOT (Qubit 0) (Qubit 1)])
    by reflexivity.
  split; [exact Ha|].
  exact (proj2 (proj2 (addressed_program_is_final (fun _ => "") (bell 0 1) None _ Ha))).
Defined.

Lemma explicit_mapping_must_cover_witness :
  Forall is_placeholder (program_qubits (bell 0 1))
  /\ exists msg,
       address (bell 0 1) (Some (dict_of [(QubitPlaceholder 0, 14)])) = inl (KeyError msg).
Proof.
  assert (Hph : Forall is_placeholder (program_qubits (bell 0 1))).
  { cbn. repeat (apply List.Forall_cons; [eexists; reflexivity|]). apply List.Forall_nil. }
  split; [exact Hph|].
  apply (proj2 (explicit_mapping_must_cover (bell 0 1)
                  (dict_of [(QubitPlaceholder 0, 14)]) Hph) (QubitPlaceholder 1)).
  - cbn. do 2 right. left.
  - reflexivity.
Defined.
End PlaceholderExtraWitnesses.
